(** * dmtest.tvm: the segment allocator and the volume manager

    A shallow embedding of [src/dmtest/tvm.py].  Python integers are [Z],
    device names are strings, the free pool and the segment lists of a
    volume are lists, the volume registry is a finite map keyed by name.
    Every operation threads the object it mutates explicitly and returns an
    [outcome]: a value together with the state reached, or the exception
    raised together with the state the exception leaves behind. *)

From Stdlib Require Import ZArith Lia Permutation Sorted.
From Equations Require Import Equations.
From Equations.Prop Require Import Logic.
From stdpp Require Import gmap strings list fin_maps sorting.

Local Open Scope Z_scope.

(** ** Exceptions and outcomes *)

(** The two exception classes of the module, and the built-in exceptions
    its code can run into.  Each carries its message (or its key). *)
Inductive exn : Type :=
| SegmentAllocationError (msg : string)
| VolumeError (msg : string)
| NotImplementedError (msg : string)
| IndexError (msg : string)
| KeyError (key : string)
| NameError (msg : string).
Arguments SegmentAllocationError msg%_string.
Arguments VolumeError msg%_string.
Arguments NotImplementedError msg%_string.
Arguments IndexError msg%_string.
Arguments KeyError key%_string.
Arguments NameError msg%_string.

Inductive outcome (St A : Type) : Type :=
| Ok (a : A) (st : St)
| Raise (e : exn) (st : St).
Arguments Ok {St A} a st.
Arguments Raise {St A} e st.

Definition bind {St A B} (m : outcome St A) (k : A -> St -> outcome St B)
  : outcome St B :=
  match m with
  | Ok a st => k a st
  | Raise e st => Raise e st
  end.

Definition succeeds {St A} (m : outcome St A) : bool :=
  match m with Ok _ _ => true | Raise _ _ => false end.

(** ** Segments *)

Record Segment : Type := mkSegment { dev : string; offset : Z; length : Z }.

(** [sum] of a list of integers, a left fold from 0 as the built-in does. *)
Definition sum (l : list Z) : Z := fold_left Z.add l 0.

(** [list.pop(0)]: the head is removed from the list object and returned;
    on an empty list the built-in raises [IndexError]. *)
Definition pop0 {A} (l : list A) : outcome (list A) A :=
  match l with
  | [] => Raise (IndexError "pop from empty list") []
  | x :: l' => Ok x l'
  end.

(** [_allocate_segment(size, segs)].  The state is the list object [segs],
    which the function mutates in place and also returns. *)
Definition _allocate_segment (size : Z) (segs : list Segment)
  : outcome (list Segment) Segment :=
  if (List.length segs =? 0)%nat then
    Raise (SegmentAllocationError "Out of space in the segment allocator") segs
  else
    bind (pop0 segs) (fun s segs =>
      if length s >? size then
        Ok (mkSegment (dev s) (offset s) size)
           (mkSegment (dev s) (offset s + size) (length s - size) :: segs)
      else Ok s segs).

(** ** Sorting by the key [(seg.dev, seg.offset)] *)

(** [<] on the key tuples: the first components that differ decide. *)
Definition key_lt (a b : Segment) : bool :=
  if String.eqb (dev a) (dev b) then offset a <? offset b
  else String.ltb (dev a) (dev b).

(** [list.sort] is stable; the stable insertion sort below is its
    functional specification: an element goes after every element already
    placed that is strictly smaller, and before the first that is not. *)
Fixpoint sort_insert (x : Segment) (l : list Segment) : list Segment :=
  match l with
  | [] => [x]
  | y :: l' => if key_lt y x then y :: sort_insert x l' else x :: y :: l'
  end.

Definition sort_by_key (l : list Segment) : list Segment :=
  foldr sort_insert [] l.

(** The test of the merge loop. *)
Definition adjacent (s n : Segment) : bool :=
  String.eqb (dev n) (dev s) && (offset n =? offset s + length s).

(** The [while segs:] loop of [_merge]; it returns the last [s] and
    [merged]. *)
Fixpoint merge_loop (s : Segment) (segs merged : list Segment)
  : Segment * list Segment :=
  match segs with
  | [] => (s, merged)
  | n :: segs' =>
      if adjacent s n then
        merge_loop (mkSegment (dev s) (offset s) (length s + length n)) segs' merged
      else
        merge_loop n segs' (merged ++ [s])
  end.

(** Truth value of a [Segment]: a named tuple of three fields is never
    empty, hence always true. *)
Definition truthy (s : Segment) : bool := true.

(** [_merge(segs)].  The state is the list object passed in: sorted in
    place, then emptied by the loop.  The value is the fresh list
    [merged]. *)
Definition _merge (segs : list Segment) : outcome (list Segment) (list Segment) :=
  bind (pop0 (sort_by_key segs)) (fun s segs =>
    let '(s, merged) := merge_loop s segs [] in
    Ok (if truthy s then merged ++ [s] else merged) []).

(** ** The allocator *)

(** The measure of the allocation loop: every iteration either shortens
    the candidate list or brings [size] down to zero. *)
Definition loop_measure (size : Z) (segments : list Segment) : nat :=
  (List.length segments + (if (0 <? size)%Z then 1 else 0))%nat.

(** The [while size > 0:] loop of [allocate_segments], on the list object
    [segments]. *)
Equations? allocate_loop (size : Z) (segments result : list Segment)
  : outcome (list Segment) (list Segment)
  by wf (loop_measure size segments) lt :=
  allocate_loop size segments result with inspect (0 <? size) := {
    | exist _ false Hsz => Ok result segments
    | exist _ true Hsz with inspect (_allocate_segment size segments) := {
        | exist _ (Raise e segs') Hal => Raise e segs'
        | exist _ (Ok s segs') Hal =>
            allocate_loop (size - length s) segs' (result ++ [s]) } }.
Proof.
  apply Z.ltb_lt in Hsz. revert Hal. unfold _allocate_segment, loop_measure.
  destruct segments as [|x l]; simpl; [discriminate|].
  destruct (length x >? size) eqn:E; intros [= <- <-]; simpl.
  - replace (size - size) with 0 by lia. simpl.
    destruct (0 <? size) eqn:F; lia.
  - destruct (0 <? size - length x); destruct (0 <? size) eqn:F; lia.
Qed.

Module Allocator.

Record t : Type := mk { _free_segments : list Segment }.

Definition __init__ : t := mk [].

(** With a predicate the candidates are a fresh list; without one they
    are the free list itself, so that what the loop pops is popped from
    the pool even when the call raises. *)
Definition allocate_segments (self : t) (size : Z)
    (segment_predicate : option (Segment -> bool)) : outcome t (list Segment) :=
  match segment_predicate with
  | Some p =>
      match allocate_loop size (List.filter p (_free_segments self)) [] with
      | Ok result segments => Ok result (mk segments)
      | Raise e _ => Raise e self
      end
  | None =>
      match allocate_loop size (_free_segments self) [] with
      | Ok result segments => Ok result (mk segments)
      | Raise e segments => Raise e (mk segments)
      end
  end.

Definition release_segments (self : t) (segs : list Segment) : outcome t unit :=
  match _merge (_free_segments self ++ segs) with
  | Ok merged _ => Ok tt (mk merged)
  | Raise e l => Raise e (mk l)
  end.

Definition free_space (self : t) : Z :=
  sum (map length (_free_segments self)).

End Allocator.

(** ** Volumes *)

(** Modelled from the spec: [targets.LinearTarget] lives in
    [dmtest.device_mapper.targets]; it is the descriptor built from
    (length, backing device, backing offset), which this module only
    constructs and orders. *)
Record LinearTarget : Type :=
  mkLinearTarget { target_length : Z; target_dev : string; target_offset : Z }.

Definition _segs_to_targets (segs : list Segment) : list LinearTarget :=
  map (fun s => mkLinearTarget (length s) (dev s) (offset s)) segs.

(** The class of a volume object decides which [resize] and [allocate] a
    call reaches. *)
Inductive volume_class : Type := VolumeClass | LinearVolumeClass.

Module Volume.

Record t : Type := mk {
  class : volume_class;
  _name : string;
  _length : Z;
  _segments : list Segment;
  _targets : list LinearTarget;
  _allocated : bool }.

Definition __init__ (name : string) (length : Z) : t :=
  mk VolumeClass name length [] [] false.

Definition size (self : t) : Z := sum (map length (_segments self)).

Definition resize (self : t) (allocator : Allocator.t) (new_length : Z)
    (segment_predicate : option (Segment -> bool))
  : outcome (t * Allocator.t) unit :=
  Raise (NotImplementedError "") (self, allocator).

Definition allocate (self : t) (allocator : Allocator.t)
    (segment_predicate : option (Segment -> bool))
  : outcome (t * Allocator.t) unit :=
  Raise (NotImplementedError "") (self, allocator).

End Volume.

Module LinearVolume.

Import Volume.

Definition __init__ (name : string) (length : Z) : Volume.t :=
  mk LinearVolumeClass name length [] [] false.

Definition resize (self : Volume.t) (allocator : Allocator.t) (new_length : Z)
    (segment_predicate : option (Segment -> bool))
  : outcome (Volume.t * Allocator.t) unit :=
  if negb (_allocated self) then
    Ok tt (mk (class self) (_name self) new_length (_segments self)
              (_targets self) (_allocated self), allocator)
  else if new_length <? _length self then
    Raise (NotImplementedError "reduce not implemented") (self, allocator)
  else
    match Allocator.allocate_segments allocator (new_length - _length self)
            segment_predicate with
    | Raise e allocator' => Raise e (self, allocator')
    | Ok new_segs allocator' =>
        Ok tt (mk (class self) (_name self) new_length
                  (_segments self ++ new_segs)
                  (_targets self ++ _segs_to_targets new_segs)
                  (_allocated self), allocator')
    end.

Definition allocate (self : Volume.t) (allocator : Allocator.t)
    (segment_predicate : option (Segment -> bool))
  : outcome (Volume.t * Allocator.t) unit :=
  match Allocator.allocate_segments allocator (_length self) segment_predicate with
  | Raise e allocator' => Raise e (self, allocator')
  | Ok segs allocator' =>
      Ok tt (mk (class self) (_name self) (_length self) segs
                (_segs_to_targets segs) true, allocator')
  end.

End LinearVolume.

(** Method lookup on a volume object. *)
Definition call_resize (vol : Volume.t) :=
  match Volume.class vol with
  | VolumeClass => Volume.resize vol
  | LinearVolumeClass => LinearVolume.resize vol
  end.

Definition call_allocate (vol : Volume.t) :=
  match Volume.class vol with
  | VolumeClass => Volume.allocate vol
  | LinearVolumeClass => LinearVolume.allocate vol
  end.

(** ** The volume manager *)

(** The names bound at module level in [tvm.py]. *)
Definition module_names : list string :=
  ["namedtuple"; "List"; "Tuple"; "Optional"; "Dict"; "Callable"; "table";
   "targets"; "utils"; "Segment"; "SegmentAllocationError"; "VolumeError";
   "_allocate_segment"; "_merge"; "Allocator"; "Volume"; "_segs_to_targets";
   "LinearVolume"; "VM"]%string.

(** Loading a name that a call passes as the predicate argument.  The
    locals of the running method are searched first; a name that is not
    among them is looked for at module level ([module_names], none of which
    is bound to a predicate) and then raises [NameError]. *)
Definition load_name {St} (locals : list (string * option (Segment -> bool)))
    (x : string) (st : St) : outcome St (option (Segment -> bool)) :=
  match List.find (fun b => String.eqb (fst b) x) locals with
  | Some b => Ok (snd b) st
  | None => Raise (NameError ("name '" +:+ x +:+ "' is not defined")) st
  end.

Module VM.

Record t : Type := mk {
  _allocator : Allocator.t;
  _volumes : gmap string Volume.t }.

Definition __init__ : t := mk Allocator.__init__ ∅.

Definition with_allocator (self : t) (a : Allocator.t) : t :=
  mk a (_volumes self).

Definition _check_not_exist (self : t) (name : string) : outcome t unit :=
  if decide (is_Some (_volumes self !! name)) then
    Raise (VolumeError ("Volume '" +:+ name +:+ "' already exists")) self
  else Ok tt self.

Definition _check_exists (self : t) (name : string) : outcome t unit :=
  if decide (is_Some (_volumes self !! name)) then Ok tt self
  else Raise (VolumeError ("Volume '" +:+ name +:+ "' doesn't exist")) self.

(** [self._volumes[name]]: a missing key raises [KeyError]. *)
Definition getitem (self : t) (name : string) : outcome t Volume.t :=
  match _volumes self !! name with
  | Some vol => Ok vol self
  | None => Raise (KeyError name) self
  end.

Section DevSize.

(** [utils.dev_size], from outside this module. *)
Variable dev_size : string -> Z.

Definition add_allocation_volume (self : t) (dev : string) (offset : Z)
    (length : option Z) : outcome t unit :=
  let length :=
    match length with
    | Some l => if l =? 0 then dev_size dev else l
    | None => dev_size dev
    end in
  match Allocator.release_segments (_allocator self)
          [mkSegment dev offset length] with
  | Ok _ a => Ok tt (with_allocator self a)
  | Raise e a => Raise e (with_allocator self a)
  end.

End DevSize.

Definition free_space (self : t) : Z := Allocator.free_space (_allocator self).

Definition add_volume (self : t) (vol : Volume.t)
    (segment_predicate : option (Segment -> bool)) : outcome t unit :=
  bind (_check_not_exist self (Volume._name vol)) (fun _ self =>
    match call_allocate vol (_allocator self) segment_predicate with
    | Raise e (_, a) => Raise e (with_allocator self a)
    | Ok _ (vol', a) => Ok tt (mk a (<[Volume._name vol' := vol']> (_volumes self)))
    end).

Definition remove_volume (self : t) (name : string) : outcome t unit :=
  bind (_check_exists self name) (fun _ self =>
  bind (getitem self name) (fun vol self =>
    match Allocator.release_segments (_allocator self) (Volume._segments vol) with
    | Raise e a => Raise e (with_allocator self a)
    | Ok _ a => Ok tt (mk a (delete name (_volumes self)))
    end)).

Definition size (self : t) (name : string) : outcome t Z :=
  bind (getitem self name) (fun vol self => Ok (Volume.size vol) self).

(** The call in the body passes [segment_preicate], while the parameter
    is [segment_predicate]. *)
Definition resize (self : t) (name : string) (new_size : Z)
    (segment_predicate : option (Segment -> bool)) : outcome t unit :=
  bind (_check_exists self name) (fun _ self =>
  bind (getitem self name) (fun vol self =>
  bind (load_name [("segment_predicate"%string, segment_predicate)]
          "segment_preicate" self) (fun p self =>
    match call_resize vol (_allocator self) new_size p with
    | Raise e (vol', a) => Raise e (mk a (<[name := vol']> (_volumes self)))
    | Ok _ (vol', a) => Ok tt (mk a (<[name := vol']> (_volumes self)))
    end))).

Definition segments (self : t) (name : string) : outcome t (list Segment) :=
  bind (_check_exists self name) (fun _ self =>
  bind (getitem self name) (fun vol self => Ok (Volume._segments vol) self)).

Definition targets (self : t) (name : string) : outcome t (list LinearTarget) :=
  bind (_check_exists self name) (fun _ self =>
  bind (getitem self name) (fun vol self => Ok (Volume._targets vol) self)).

End VM.

(** ** Vocabulary of the specification *)

Definition seg_end (s : Segment) : Z := offset s + length s.

(** Two extents overlap when they are on one device and share an address. *)
Definition overlaps (a b : Segment) : bool :=
  String.eqb (dev a) (dev b)
  && (Z.max (offset a) (offset b) <? Z.min (seg_end a) (seg_end b)).

Fixpoint pairwise_disjoint (l : list Segment) : bool :=
  match l with
  | [] => true
  | a :: l' => forallb (fun b => negb (overlaps a b)) l' && pairwise_disjoint l'
  end.

(** [s] lies within [f]: same device, contained interval of offsets. *)
Definition sub_range (s f : Segment) : bool :=
  String.eqb (dev s) (dev f)
  && (offset f <=? offset s) && (seg_end s <=? seg_end f).

Definition total_length (l : list Segment) : Z := sum (map length l).

(** The candidates of an allocation. *)
Definition eligible (segment_predicate : option (Segment -> bool))
    (a : Allocator.t) : list Segment :=
  match segment_predicate with
  | Some p => List.filter p (Allocator._free_segments a)
  | None => Allocator._free_segments a
  end.

(** The candidates run out before what has been taken amounts to [size]:
    no prefix of the list is as long as [size]. *)
Definition exhausted (size : Z) (l : list Segment) : Prop :=
  forall k : nat, total_length (take k l) < size.

Fixpoint exhaustedb (size : Z) (l : list Segment) : bool :=
  (0 <? size)
  && match l with
     | [] => true
     | s :: l' => exhaustedb (size - length s) l'
     end.

(** How a successful allocation of [size] carves its result out of the
    candidates [segs]: whole entries from the front, and possibly a proper
    prefix of the next entry, whose tail goes back to the front. *)
Inductive carved (size : Z) (segs result rest : list Segment) : Prop :=
| carved_whole :
    segs = result ++ rest ->
    total_length result = size ->
    carved size segs result rest
| carved_split (taken : list Segment) (x : Segment) (tl : list Segment) (n : Z) :
    segs = taken ++ x :: tl ->
    result = taken ++ [mkSegment (dev x) (offset x) n] ->
    rest = mkSegment (dev x) (offset x + n) (length x - n) :: tl ->
    0 < n < length x ->
    total_length taken + n = size ->
    carved size segs result rest.


(** The four cases an iteration of the allocation loop can be in. *)
Variant loop_case (size : Z) (segs : list Segment) : Prop :=
| case_done : size <= 0 -> loop_case size segs
| case_nil : 0 < size -> segs = [] -> loop_case size segs
| case_split s l : 0 < size -> segs = s :: l -> size < length s -> loop_case size segs
| case_take s l : 0 < size -> segs = s :: l -> length s <= size -> loop_case size segs.

(** Order of the sort keys, and the shapes of a coalesced pool. *)
Definition key_le (a b : Segment) : Prop := key_lt b a = false.

Definition sorted_by_key (l : list Segment) : Prop := StronglySorted key_le l.

Fixpoint no_adjacent_neighbours (l : list Segment) : bool :=
  match l with
  | a :: (b :: _) as l' => negb (adjacent a b) && no_adjacent_neighbours l'
  | _ => true
  end.

Definition no_adjacent_pair (l : list Segment) : Prop :=
  forall (i j : nat) (a b : Segment),
    i <> j -> l !! i = Some a -> l !! j = Some b -> adjacent a b = false.

(** On one device, [a] ends where [b] starts or earlier; [a] ends strictly
    earlier. *)
Definition ends_before (a b : Segment) : Prop :=
  dev a = dev b -> seg_end a <= offset b.

Definition ends_strictly_before (a b : Segment) : Prop :=
  dev a = dev b -> seg_end a < offset b.

Definition precedes (a b : Segment) : Prop := key_le a b /\ ends_before a b.

Definition positive_lengths (l : list Segment) : Prop :=
  Forall (fun s => 0 < length s) l.

(** Two entries with one sort key; a stable sort keeps such entries in
    their order. *)
Definition same_key (a b : Segment) : bool :=
  String.eqb (dev a) (dev b) && (offset a =? offset b).

(** The loop of [_merge] without its accumulator. *)
Fixpoint coalesce (s : Segment) (segs : list Segment) : list Segment :=
  match segs with
  | [] => [s]
  | n :: segs' =>
      if adjacent s n then
        coalesce (mkSegment (dev s) (offset s) (length s + length n)) segs'
      else s :: coalesce n segs'
  end.

(** ** States of the scenarios *)

Definition d0_0_100 : Segment := mkSegment "d0" 0 100.

(** The manager after registering ("d0", 0, 100) and adding the linear
    volume "v" of length 30. *)
Definition volume_v : Volume.t :=
  Volume.mk LinearVolumeClass "v" 30 [mkSegment "d0" 0 30]
    [mkLinearTarget 30 "d0" 0] true.

Definition vm_with_v : VM.t :=
  VM.mk (Allocator.mk [mkSegment "d0" 30 70]) {[ "v"%string := volume_v ]}.

Definition on_d0 (s : Segment) : bool := String.eqb (dev s) "d0".

Definition any_segment (s : Segment) : bool := true.

Definition two_devices : Allocator.t :=
  Allocator.mk [mkSegment "d0" 0 10; mkSegment "d1" 0 10].

Definition small_pool : Allocator.t := Allocator.mk [mkSegment "d0" 0 5].

Definition overlapping : list Segment :=
  [mkSegment "d0" 0 10; mkSegment "d0" 5 1; mkSegment "d0" 10 5].

Definition overlapping' : list Segment :=
  [mkSegment "d0" 0 10; mkSegment "d0" 5 2; mkSegment "d0" 10 1].

(** ** Well-formed pools *)

(** Strict order of the sort keys. *)
Definition key_strict (a b : Segment) : Prop := key_lt a b = true.

(** [a] comes before [b] in sort order and, on one device, leaves a gap
    before [b]. *)
Definition separated (a b : Segment) : Prop :=
  key_le a b /\ ends_strictly_before a b.

(** A pool in the shape a release leaves it: extents of positive length,
    in address order, neither overlapping nor touching. *)
Definition well_formed_pool (l : list Segment) : Prop :=
  positive_lengths l /\ StronglySorted separated l.

Definition nonneg_lengths (l : list Segment) : Prop :=
  Forall (fun s => 0 <= length s) l.

(** The address [x] of device [d] lies in the extent [s]; lies in one of
    the extents of [l]. *)
Definition covers (s : Segment) (d : string) (x : Z) : bool :=
  String.eqb (dev s) d && (offset s <=? x) && (x <? seg_end s).

Definition covered (l : list Segment) (d : string) (x : Z) : bool :=
  existsb (fun s => covers s d x) l.

(** The merge loop started on the head of a list. *)
Definition coalesce_list (l : list Segment) : list Segment :=
  match l with
  | [] => []
  | s :: l' => coalesce s l'
  end.

(** The space the registered volumes own, taken together. *)
Definition allocated_space (vm : VM.t) : Z :=
  map_fold (fun _ vol acc => Volume.size vol + acc) 0 (VM._volumes vm).

(** * Properties *)

(** ** Sums *)

Lemma fold_left_add_acc (l : list Z) (a : Z) :
  fold_left Z.add l a = a + fold_left Z.add l 0.
Proof.
  revert a. induction l as [|x l IH]; intros a; simpl; [lia|].
  rewrite (IH (a + x)), (IH (0 + x)). lia.
Qed.

Lemma sum_nil : sum [] = 0.
Proof. reflexivity. Qed.

Lemma sum_cons (x : Z) (l : list Z) : sum (x :: l) = x + sum l.
Proof. unfold sum. simpl. apply fold_left_add_acc. Qed.

Lemma sum_app (l1 l2 : list Z) : sum (l1 ++ l2) = sum l1 + sum l2.
Proof.
  induction l1 as [|x l1 IH]; simpl; [rewrite sum_nil; lia|].
  rewrite !sum_cons, IH. lia.
Qed.

Lemma total_length_nil : total_length [] = 0.
Proof. reflexivity. Qed.

Lemma total_length_cons (s : Segment) (l : list Segment) :
  total_length (s :: l) = length s + total_length l.
Proof. unfold total_length. simpl. apply sum_cons. Qed.

Lemma total_length_app (l1 l2 : list Segment) :
  total_length (l1 ++ l2) = total_length l1 + total_length l2.
Proof. unfold total_length. rewrite map_app. apply sum_app. Qed.

Lemma total_length_perm (l1 l2 : list Segment) :
  Permutation l1 l2 -> total_length l1 = total_length l2.
Proof.
  induction 1; rewrite ?total_length_cons in *; lia.
Qed.

(** ** The allocation loop *)

Lemma allocate_loop_step size segments result :
  allocate_loop size segments result =
  if 0 <? size then
    match _allocate_segment size segments with
    | Ok s segs' => allocate_loop (size - length s) segs' (result ++ [s])
    | Raise e segs' => Raise e segs'
    end
  else Ok result segments.
Proof.
  funelim (allocate_loop size segments result);
    rewrite ?Hsz, ?Hal; reflexivity.
Qed.

Lemma allocate_loop_done size segments result :
  size <= 0 -> allocate_loop size segments result = Ok result segments.
Proof.
  intros H. rewrite allocate_loop_step.
  destruct (Z.ltb_spec 0 size); [lia | reflexivity].
Qed.

Lemma allocate_loop_nil size result :
  0 < size ->
  allocate_loop size [] result =
  Raise (SegmentAllocationError "Out of space in the segment allocator") [].
Proof.
  intros H. rewrite allocate_loop_step.
  destruct (Z.ltb_spec 0 size); [reflexivity | lia].
Qed.

Lemma allocate_loop_split size s segs result :
  0 < size -> size < length s ->
  allocate_loop size (s :: segs) result =
  Ok (result ++ [mkSegment (dev s) (offset s) size])
     (mkSegment (dev s) (offset s + size) (length s - size) :: segs).
Proof.
  intros H1 H2. rewrite allocate_loop_step.
  destruct (Z.ltb_spec 0 size); [|lia].
  unfold _allocate_segment. simpl.
  destruct (Z.gtb_spec (length s) size); [|lia].
  apply allocate_loop_done. simpl. lia.
Qed.

Lemma allocate_loop_take size s segs result :
  0 < size -> length s <= size ->
  allocate_loop size (s :: segs) result =
  allocate_loop (size - length s) segs (result ++ [s]).
Proof.
  intros H1 H2. rewrite allocate_loop_step.
  destruct (Z.ltb_spec 0 size); [|lia].
  unfold _allocate_segment. simpl.
  destruct (Z.gtb_spec (length s) size); [lia | reflexivity].
Qed.

Lemma loop_cases size segs : loop_case size segs.
Proof.
  destruct (Z_lt_le_dec 0 size) as [H|H]; [|by apply case_done].
  destruct segs as [|s l]; [by apply case_nil|].
  destruct (Z_lt_le_dec size (length s)); [by eapply case_split | by eapply case_take].
Qed.

Lemma allocate_loop_acc size segs acc :
  allocate_loop size segs acc =
  match allocate_loop size segs [] with
  | Ok r rest => Ok (acc ++ r) rest
  | Raise e rest => Raise e rest
  end.
Proof.
  revert size acc. induction segs as [|s l IH]; intros size acc.
  - destruct (loop_cases size []) as [H|H _|? ? _ [=]|? ? _ [=]].
    + rewrite !allocate_loop_done by done. by rewrite app_nil_r.
    + by rewrite !allocate_loop_nil.
  - destruct (loop_cases size (s :: l)) as [H|_ [=]|? ? H [= <- <-] H'|? ? H [= <- <-] H'].
    + rewrite !allocate_loop_done by done. by rewrite app_nil_r.
    + by rewrite !allocate_loop_split.
    + rewrite !allocate_loop_take by done.
      rewrite (IH _ (acc ++ [s])), (IH _ ([] ++ [s])).
      destruct (allocate_loop (size - length s) l []); [|done].
      by rewrite <- app_assoc.
Qed.

(** The loop never raises anything but the allocation error, and it raises
    with its candidates used up. *)
Lemma allocate_loop_raise size segs acc e rest :
  allocate_loop size segs acc = Raise e rest ->
  e = SegmentAllocationError "Out of space in the segment allocator" /\ rest = [].
Proof.
  revert size acc. induction segs as [|s l IH]; intros size acc.
  - destruct (loop_cases size []) as [H|H _|? ? _ [=]|? ? _ [=]].
    + by rewrite allocate_loop_done.
    + rewrite allocate_loop_nil by done. by intros [= <- <-].
  - destruct (loop_cases size (s :: l)) as [H|_ [=]|? ? H [= <- <-] H'|? ? H [= <- <-] H'].
    + by rewrite allocate_loop_done.
    + by rewrite allocate_loop_split.
    + rewrite allocate_loop_take by done. apply IH.
Qed.

Lemma carved_cons size s l r rest :
  carved size l r rest -> carved (length s + size) (s :: l) (s :: r) rest.
Proof.
  intros [Hsegs Hlen | taken x tl n Hsegs Hr Hrest Hn Hlen].
  - apply carved_whole; [by rewrite Hsegs | rewrite total_length_cons; lia].
  - apply (carved_split _ _ _ _ (s :: taken) x tl n); try done.
    + by rewrite Hsegs.
    + by rewrite Hr.
    + rewrite total_length_cons. lia.
Qed.

Lemma allocate_loop_carved size segs r rest :
  0 < size -> allocate_loop size segs [] = Ok r rest -> carved size segs r rest.
Proof.
  revert size r rest. induction segs as [|s l IH]; intros size r rest Hsz.
  - by rewrite allocate_loop_nil.
  - destruct (Z_lt_le_dec size (length s)) as [Hlt|Hle].
    + rewrite allocate_loop_split by done. intros [= <- <-].
      apply (carved_split _ _ _ _ [] s l size); try done; try lia.
    + rewrite allocate_loop_take, allocate_loop_acc by done.
      destruct (allocate_loop (size - length s) l []) as [r' rest'|] eqn:E; [|done].
      intros [= <- <-]. simpl.
      replace size with (length s + (size - length s)) by lia.
      apply carved_cons.
      destruct (Z_lt_le_dec 0 (size - length s)) as [Hpos|Hz]; [by apply IH|].
      rewrite allocate_loop_done in E by done. injection E as <- <-.
      apply carved_whole; [done | rewrite total_length_nil; lia].
Qed.

(** ** Running out of candidates *)

Lemma exhaustedb_spec size l : exhaustedb size l = true <-> exhausted size l.
Proof.
  unfold exhausted. revert size. induction l as [|s l IH]; intros size; simpl.
  - rewrite andb_true_r, Z.ltb_lt. split.
    + intros H k. by rewrite take_nil, total_length_nil.
    + intros H. apply (H 0%nat).
  - rewrite andb_true_iff, Z.ltb_lt, IH. split.
    + intros [H0 H] [|k]; simpl; [by rewrite total_length_nil|].
      rewrite total_length_cons. specialize (H k). lia.
    + intros H. split; [apply (H 0%nat)|].
      intros k. specialize (H (S k)). simpl in H.
      rewrite total_length_cons in H. lia.
Qed.

Lemma allocate_loop_succeeds size segs acc :
  succeeds (allocate_loop size segs acc) = negb (exhaustedb size segs).
Proof.
  revert size acc. induction segs as [|s l IH]; intros size acc.
  - destruct (Z_lt_le_dec 0 size).
    + rewrite allocate_loop_nil by done. simpl.
      by destruct (Z.ltb_spec 0 size); [|lia].
    + rewrite allocate_loop_done by done. simpl.
      by destruct (Z.ltb_spec 0 size); [lia|].
  - destruct (loop_cases size (s :: l))
      as [H|_ [=]|? ? H [= <- <-] H'|? ? H [= <- <-] H']; simpl.
    + rewrite allocate_loop_done by done.
      by destruct (Z.ltb_spec 0 size); [lia|].
    + rewrite allocate_loop_split by done.
      destruct (Z.ltb_spec 0 size); [|lia]. simpl.
      destruct l; simpl; by destruct (Z.ltb_spec 0 (size - length s)); [lia|].
    + rewrite allocate_loop_take, IH by done.
      by destruct (Z.ltb_spec 0 size); [|lia].
Qed.

(** ** Overlap and containment *)

Lemma sub_range_refl s : sub_range s s = true.
Proof.
  unfold sub_range. rewrite String.eqb_refl. simpl.
  apply andb_true_iff. split; apply Z.leb_le; lia.
Qed.

Lemma overlaps_sym a b : overlaps a b = overlaps b a.
Proof.
  unfold overlaps. rewrite (String.eqb_sym (dev a)), (Z.max_comm (offset a)),
    (Z.min_comm (seg_end a)). done.
Qed.

Lemma overlaps_sub_r a p x :
  sub_range p x = true -> overlaps a x = false -> overlaps a p = false.
Proof.
  unfold sub_range, overlaps. rewrite !andb_true_iff, !Z.leb_le.
  intros [[Hd H1] H2]. apply String.eqb_eq in Hd. rewrite Hd.
  destruct (String.eqb (dev a) (dev x)); simpl; [|done].
  rewrite !Z.ltb_ge. lia.
Qed.

Lemma overlaps_sub_l a p x :
  sub_range p x = true -> overlaps x a = false -> overlaps p a = false.
Proof. rewrite !(overlaps_sym _ a). apply overlaps_sub_r. Qed.

Lemma pairwise_disjoint_app l1 l2 :
  pairwise_disjoint (l1 ++ l2) = true <->
  pairwise_disjoint l1 = true /\ pairwise_disjoint l2 = true /\
  (forall a b, In a l1 -> In b l2 -> overlaps a b = false).
Proof.
  induction l1 as [|x l1 IH]; simpl.
  - split; [by intros H; repeat split | by intros (_ & H & _)].
  - rewrite !andb_true_iff, !forallb_forall, IH. split.
    + intros [Hx (H1 & H2 & H12)]. repeat split; try done.
      * intros b Hb. apply Hx, in_or_app. by left.
      * intros a b [<-|Ha] Hb; [|by apply H12].
        apply negb_true_iff, Hx, in_or_app. by right.
    + intros ([Hx H1] & H2 & H12). split; [|by repeat split; auto].
      intros b [Hb|Hb]%in_app_or; [by apply Hx|].
      apply negb_true_iff, H12; [by left | done].
Qed.

Lemma pairwise_disjoint_filter p l :
  pairwise_disjoint l = true -> pairwise_disjoint (List.filter p l) = true.
Proof.
  induction l as [|x l IH]; simpl; [done|].
  rewrite andb_true_iff, forallb_forall. intros [Hx Hl].
  destruct (p x); simpl; [|by apply IH].
  rewrite andb_true_iff, forallb_forall. split; [|by apply IH].
  intros b [Hb _]%filter_In. by apply Hx.
Qed.

Lemma carved_disjoint size segs r rest :
  carved size segs r rest ->
  pairwise_disjoint segs = true -> pairwise_disjoint r = true.
Proof.
  intros [-> _ | taken x tl n -> -> _ Hn _].
  - rewrite pairwise_disjoint_app. by intros (H & _ & _).
  - rewrite !pairwise_disjoint_app. intros (Ht & _ & Hx).
    repeat split; try done.
    intros a b Ha [<-|[]].
    apply (overlaps_sub_r a _ x); [|apply Hx; [done | by left]].
    unfold sub_range, seg_end. simpl. rewrite String.eqb_refl. simpl.
    apply andb_true_iff. split; apply Z.leb_le; lia.
Qed.

Lemma carved_sub_range size segs r rest :
  carved size segs r rest ->
  Forall (fun s => exists f, In f segs /\ sub_range s f = true) r.
Proof.
  intros [-> _ | taken x tl n -> -> _ Hn _]; apply Forall_forall.
  - intros s Hs%list_elem_of_In. exists s. split; [|apply sub_range_refl].
    apply in_or_app. by left.
  - intros s [Hs|[<-|[]]]%list_elem_of_In%in_app_or.
    + exists s. split; [|apply sub_range_refl]. apply in_or_app. by left.
    + exists x. split; [apply in_or_app; right; by left|].
      unfold sub_range, seg_end. simpl. rewrite String.eqb_refl. simpl.
      apply andb_true_iff. split; apply Z.leb_le; lia.
Qed.

Lemma carved_total size segs r rest :
  carved size segs r rest -> total_length r = size.
Proof.
  intros [_ H | taken x tl n _ -> _ _ H]; [done|].
  rewrite total_length_app, total_length_cons, total_length_nil. simpl. lia.
Qed.

(** ** The order of the sort keys *)

Lemma str_compare_refl (s : string) : String.compare s s = Eq.
Proof.
  pose proof (String.compare_antisym s s) as H.
  destruct (String.compare s s); simpl in H; congruence.
Qed.

Lemma str_compare_lt_trans (a b c : string) :
  String.compare a b = Lt -> String.compare b c = Lt -> String.compare a c = Lt.
Proof.
  intros Hab Hbc.
  assert (String.le a c) as Hac.
  { transitivity b; unfold String.le, String.leb; [by rewrite Hab | by rewrite Hbc]. }
  unfold String.le, String.leb in Hac.
  destruct (String.compare a c) eqn:E; [|done|done].
  apply String.compare_eq_iff in E. subst c.
  rewrite String.compare_antisym, Hab in Hbc. done.
Qed.

Lemma key_le_spec (a b : Segment) :
  key_le a b <->
  String.compare (dev a) (dev b) = Lt \/ (dev a = dev b /\ offset a <= offset b).
Proof.
  unfold key_le, key_lt. destruct (String.eqb_spec (dev b) (dev a)) as [E|E].
  - rewrite E, str_compare_refl, Z.ltb_ge.
    split; [by right | by intros [|[_ ?]]].
  - unfold String.ltb. rewrite String.compare_antisym.
    destruct (String.compare (dev a) (dev b)) eqn:C; simpl.
    + apply String.compare_eq_iff in C. congruence.
    + naive_solver.
    + split; [done|]. intros [|[]]; congruence.
Qed.

Lemma key_le_total (a b : Segment) : key_lt a b = true -> key_le a b.
Proof.
  intros H. apply key_le_spec. revert H. unfold key_lt.
  destruct (String.eqb_spec (dev a) (dev b)) as [E|E].
  - rewrite Z.ltb_lt. right. split; [done | lia].
  - unfold String.ltb. destruct (String.compare (dev a) (dev b)); [done| |done].
    by left.
Qed.

Lemma key_le_trans (a b c : Segment) : key_le a b -> key_le b c -> key_le a c.
Proof.
  rewrite !key_le_spec. intros [H1|[E1 H1]] [H2|[E2 H2]].
  - left. by eapply str_compare_lt_trans.
  - left. by rewrite <- E2.
  - left. by rewrite E1.
  - right. split; [congruence | lia].
Qed.

(** Between two entries of one device, a sorted list holds only entries of
    that device. *)
Lemma key_le_between (a b c : Segment) :
  key_le a b -> key_le b c -> dev a = dev c -> dev b = dev a.
Proof.
  rewrite !key_le_spec. intros [H1|[E1 H1]] [H2|[E2 H2]] E; try congruence.
  rewrite <- E in H2. rewrite String.compare_antisym, H1 in H2. done.
Qed.

(** ** The sort *)

Lemma sort_insert_perm x l : Permutation (sort_insert x l) (x :: l).
Proof.
  induction l as [|y l IH]; simpl; [done|].
  destruct (key_lt y x); [|done].
  rewrite IH. apply perm_swap.
Qed.

Lemma sort_by_key_perm l : Permutation (sort_by_key l) l.
Proof.
  induction l as [|x l IH]; simpl; [done|].
  rewrite sort_insert_perm. by constructor.
Qed.

Lemma sort_insert_sorted x l :
  sorted_by_key l -> sorted_by_key (sort_insert x l).
Proof.
  unfold sorted_by_key. induction l as [|y l IH]; simpl; intros Hl.
  - repeat constructor.
  - apply StronglySorted_inv in Hl as [Hl Hy].
    destruct (key_lt y x) eqn:E.
    + constructor; [by apply IH|].
      rewrite sort_insert_perm. constructor; [by apply key_le_total | done].
    + constructor; [by constructor|].
      constructor; [done|].
      eapply Forall_impl; [exact Hy|]. intros z Hz.
      by apply (key_le_trans x y z).
Qed.

Lemma sort_by_key_sorted l : sorted_by_key (sort_by_key l).
Proof.
  induction l as [|x l IH]; simpl; [constructor | by apply sort_insert_sorted].
Qed.

(** Stability: the entries of one key keep their order. *)
Lemma same_key_not_lt k x y :
  same_key k x = true -> same_key k y = true -> key_lt y x = false.
Proof.
  unfold same_key, key_lt. rewrite !andb_true_iff, !String.eqb_eq, !Z.eqb_eq.
  intros [Hd Ho] [Hd' Ho']. rewrite <- Hd, <- Hd', <- Ho, <- Ho'.
  rewrite String.eqb_refl. apply Z.ltb_irrefl.
Qed.

Lemma sort_insert_stable k x l :
  List.filter (same_key k) (sort_insert x l) = List.filter (same_key k) (x :: l).
Proof.
  induction l as [|y l IH]; [done|]. simpl sort_insert.
  destruct (key_lt y x) eqn:E; [|done].
  cbn [List.filter] in *.
  destruct (same_key k y) eqn:Ey; rewrite IH;
    destruct (same_key k x) eqn:Ex; try done.
  by rewrite (same_key_not_lt k x y) in E.
Qed.

Lemma sort_by_key_stable k l :
  List.filter (same_key k) (sort_by_key l) = List.filter (same_key k) l.
Proof.
  induction l as [|x l IH]; [done|]. simpl sort_by_key.
  rewrite sort_insert_stable. simpl. by rewrite IH.
Qed.

Lemma sort_by_key_id l : sorted_by_key l -> sort_by_key l = l.
Proof.
  unfold sorted_by_key. induction l as [|x l IH]; [done|].
  intros [Hl Hx]%StronglySorted_inv. simpl. rewrite IH by done.
  destruct l as [|y l]; [done|]. simpl.
  apply Forall_cons in Hx as [Hxy _]. unfold key_le in Hxy. by rewrite Hxy.
Qed.

Lemma sort_by_key_nil l : sort_by_key l = [] -> l = [].
Proof.
  intros H. apply Permutation_nil. rewrite <- H. apply sort_by_key_perm.
Qed.

(** ** The merge *)

Lemma merge_loop_coalesce s segs merged s' merged' :
  merge_loop s segs merged = (s', merged') ->
  merged' ++ [s'] = merged ++ coalesce s segs.
Proof.
  revert s merged. induction segs as [|n segs IH]; intros s merged; simpl.
  - by intros [= <- <-].
  - destruct (adjacent s n); intros H%IH; [done|].
    by rewrite H, <- app_assoc.
Qed.

Lemma merge_sorted_cons l s segs :
  sort_by_key l = s :: segs -> _merge l = Ok (coalesce s segs) [].
Proof.
  intros H. unfold _merge. rewrite H. simpl.
  destruct (merge_loop s segs []) as [s' merged'] eqn:E.
  apply merge_loop_coalesce in E. simpl in *. by rewrite E.
Qed.

Lemma merge_nil : _merge [] = Raise (IndexError "pop from empty list") [].
Proof. reflexivity. Qed.

Lemma merge_nonempty l :
  l <> [] ->
  exists s segs, sort_by_key l = s :: segs /\ _merge l = Ok (coalesce s segs) [].
Proof.
  intros Hl. destruct (sort_by_key l) as [|s segs] eqn:E.
  - by apply sort_by_key_nil in E.
  - exists s, segs. split; [done | by apply merge_sorted_cons].
Qed.

Lemma coalesce_total s segs :
  total_length (coalesce s segs) = total_length (s :: segs).
Proof.
  revert s. induction segs as [|n segs IH]; intros s; simpl; [done|].
  destruct (adjacent s n).
  - rewrite IH, !total_length_cons. simpl. lia.
  - rewrite !total_length_cons, IH, total_length_cons. lia.
Qed.

Lemma coalesce_head s segs :
  exists h tl, coalesce s segs = h :: tl /\ dev h = dev s /\ offset h = offset s.
Proof.
  revert s. induction segs as [|n segs IH]; intros s; simpl; [by eauto|].
  destruct (adjacent s n); [|by eauto].
  destruct (IH (mkSegment (dev s) (offset s) (length s + length n)))
    as (h & tl & -> & Hd & Ho). eauto.
Qed.

Lemma adjacent_key s n n' :
  dev n' = dev n -> offset n' = offset n -> adjacent s n' = adjacent s n.
Proof. unfold adjacent. by intros -> ->. Qed.

Lemma coalesce_no_adjacent_neighbours s segs :
  no_adjacent_neighbours (coalesce s segs) = true.
Proof.
  revert s. induction segs as [|n segs IH]; intros s; simpl; [done|].
  destruct (adjacent s n) eqn:E; [apply IH|].
  specialize (IH n).
  destruct (coalesce_head n segs) as (h & tl & Hc & Hd & Ho).
  rewrite Hc in *. simpl. rewrite (adjacent_key s n h), E by done. done.
Qed.

Lemma coalesce_id s segs :
  no_adjacent_neighbours (s :: segs) = true -> coalesce s segs = s :: segs.
Proof.
  revert s. induction segs as [|n segs IH]; intros s; [done|].
  cbn [no_adjacent_neighbours coalesce].
  intros [Hn H]%andb_true_iff. apply negb_true_iff in Hn. rewrite Hn.
  by rewrite IH.
Qed.

(** What holds of an entry by its device and offset alone passes from the
    sorted list to the merged one. *)
Lemma coalesce_Forall_key (P : Segment -> Prop) s segs :
  (forall a b, dev a = dev b -> offset a = offset b -> P a -> P b) ->
  Forall P (s :: segs) -> Forall P (coalesce s segs).
Proof.
  intros HP. revert s. induction segs as [|n segs IH]; intros s; simpl; [done|].
  intros [Hs [Hn Hsegs]%Forall_cons]%Forall_cons.
  destruct (adjacent s n).
  - apply IH. constructor; [|done]. by apply (HP s).
  - constructor; [done|]. apply IH. by constructor.
Qed.

Lemma coalesce_positive s segs :
  positive_lengths (s :: segs) -> positive_lengths (coalesce s segs).
Proof.
  unfold positive_lengths. revert s. induction segs as [|n segs IH]; intros s; simpl; [done|].
  intros [Hs [Hn Hsegs]%Forall_cons]%Forall_cons.
  destruct (adjacent s n).
  - apply IH. constructor; [simpl; lia | done].
  - constructor; [done|]. apply IH. by constructor.
Qed.

(** A relation that reads its right argument by device and offset alone,
    and that a merged entry inherits from its two parts, orders the merged
    list when it orders the sorted one. *)
Lemma coalesce_StronglySorted (R : Segment -> Segment -> Prop) s segs :
  (forall a b b', dev b = dev b' -> offset b = offset b' -> R a b -> R a b') ->
  (forall a n x, adjacent a n = true -> R a x -> R n x ->
     R (mkSegment (dev a) (offset a) (length a + length n)) x) ->
  StronglySorted R (s :: segs) -> StronglySorted R (coalesce s segs).
Proof.
  intros Hkey Hmerge. revert s.
  induction segs as [|n segs IH]; intros s; simpl; [done|].
  intros [[Hsegs Hn]%StronglySorted_inv [Hsn Hs]%Forall_cons]%StronglySorted_inv.
  destruct (adjacent s n) eqn:E.
  - apply IH. constructor; [done|].
    apply Forall_forall. intros x Hx.
    rewrite Forall_forall in Hs, Hn. by apply Hmerge; [|apply Hs|apply Hn].
  - constructor; [apply IH; by constructor|].
    apply coalesce_Forall_key; [intros a b; apply Hkey | by constructor].
Qed.

Lemma key_le_key_r a b b' :
  dev b = dev b' -> offset b = offset b' -> key_le a b -> key_le a b'.
Proof. rewrite !key_le_spec. by intros -> ->. Qed.

Lemma key_le_key_l a a' b :
  dev a = dev a' -> offset a = offset a' -> key_le a b -> key_le a' b.
Proof. rewrite !key_le_spec. by intros -> ->. Qed.

Lemma coalesce_sorted s segs :
  sorted_by_key (s :: segs) -> sorted_by_key (coalesce s segs).
Proof.
  apply coalesce_StronglySorted.
  - apply key_le_key_r.
  - intros a n x _ Ha _. by apply (key_le_key_l a).
Qed.

(** ** Disjoint extents of positive length *)

Lemma pairwise_disjoint_perm l l' :
  Permutation l l' -> pairwise_disjoint l = true -> pairwise_disjoint l' = true.
Proof.
  induction 1 as [|x l l' Hp IH|x y l|l l' l'' _ IH1 _ IH2]; simpl.
  - done.
  - rewrite !andb_true_iff, !forallb_forall. intros [Hx Hl]. split; [|by apply IH].
    intros b Hb. apply Hx. by apply (Permutation_in b (Permutation_sym Hp)).
  - rewrite !andb_true_iff, !negb_true_iff, (overlaps_sym x y). tauto.
  - auto.
Qed.

Lemma sorted_disjoint_precedes l :
  sorted_by_key l -> pairwise_disjoint l = true -> positive_lengths l ->
  StronglySorted precedes l.
Proof.
  unfold sorted_by_key, positive_lengths.
  induction l as [|x l IH]; [constructor|]. simpl.
  intros [Hl Hx]%StronglySorted_inv [Hd Hdl]%andb_true_iff [Hpx Hpl]%Forall_cons.
  constructor; [by apply IH|].
  rewrite forallb_forall in Hd. rewrite Forall_forall in Hx, Hpl.
  apply Forall_forall. intros y Hy. split; [by apply Hx|].
  intros Hdev.
  specialize (Hx y Hy). apply key_le_spec in Hx.
  apply list_elem_of_In in Hy.
  specialize (Hd y Hy). apply negb_true_iff in Hd.
  apply list_elem_of_In in Hy. specialize (Hpl y Hy). simpl in Hpl.
  unfold overlaps in Hd. rewrite Hdev, String.eqb_refl in Hd. simpl in Hd.
  apply Z.ltb_ge in Hd. unfold seg_end in *.
  destruct Hx as [Hx|[_ Hx]]; [by rewrite Hdev, str_compare_refl in Hx|].
  lia.
Qed.

Lemma coalesce_precedes s segs :
  StronglySorted precedes (s :: segs) -> StronglySorted precedes (coalesce s segs).
Proof.
  apply coalesce_StronglySorted.
  - intros a b b' Hd Ho [H1 H2]. split; [by apply (key_le_key_r a b)|].
    unfold ends_before in *. rewrite <- Hd, <- Ho. done.
  - intros a n x Hadj [Ha1 Ha2] [Hn1 Hn2]. split; [by apply (key_le_key_l a)|].
    unfold adjacent in Hadj. apply andb_true_iff in Hadj as [Hd Ho].
    apply String.eqb_eq in Hd. apply Z.eqb_eq in Ho.
    unfold ends_before, seg_end in *. simpl. intros Hax.
    specialize (Hn2 ltac:(congruence)). lia.
Qed.

Lemma precedes_strict l :
  StronglySorted precedes l -> positive_lengths l ->
  no_adjacent_neighbours l = true ->
  StronglySorted ends_strictly_before l.
Proof.
  unfold positive_lengths.
  induction l as [|a l IH]; [constructor|].
  intros [Hl Ha]%StronglySorted_inv [Hpa Hpl]%Forall_cons Hadj.
  destruct l as [|c l]; [by repeat constructor|].
  cbn [no_adjacent_neighbours] in Hadj.
  apply andb_true_iff in Hadj as [Hac Hadj]. apply negb_true_iff in Hac.
  constructor; [by apply IH|].
  apply Forall_cons in Ha as [[Hkac Heac] Ha].
  apply StronglySorted_inv in Hl as [_ Hc].
  apply Forall_cons in Hpl as [Hpc _]. simpl in Hpc.
  assert (ends_strictly_before a c) as Hstrict.
  { intros Hd. specialize (Heac Hd). unfold adjacent in Hac.
    rewrite Hd, String.eqb_refl in Hac. simpl in Hac.
    apply Z.eqb_neq in Hac. unfold seg_end in *. lia. }
  constructor; [done|].
  rewrite Forall_forall in Ha, Hc. apply Forall_forall. intros b Hb Hd.
  destruct (Ha b Hb) as [Hkab _]. destruct (Hc b Hb) as [Hkcb Hecb].
  pose proof (key_le_between a c b Hkac Hkcb Hd) as Hdc.
  specialize (Hstrict ltac:(congruence)). specialize (Hecb ltac:(congruence)).
  unfold seg_end in *. lia.
Qed.

Lemma StronglySorted_lookup (R : Segment -> Segment -> Prop) (l : list Segment)
    (i j : nat) (a b : Segment) :
  StronglySorted R l -> (i < j)%nat -> l !! i = Some a -> l !! j = Some b -> R a b.
Proof.
  intros Hl. revert i j. induction Hl as [|x l Hl IH Hx]; intros i j Hij Hi Hj.
  - done.
  - destruct j as [|j]; [lia|]. destruct i as [|i]; simpl in *.
    + injection Hi as ->. rewrite Forall_forall in Hx. apply Hx.
      by apply list_elem_of_lookup_2 in Hj.
    + apply (IH i j); [lia | done | done].
Qed.

Lemma strict_no_adjacent_pair l :
  StronglySorted ends_strictly_before l -> positive_lengths l ->
  no_adjacent_pair l.
Proof.
  intros Hl Hp i j a b Hij Hi Hj.
  unfold positive_lengths in Hp. rewrite Forall_forall in Hp.
  pose proof (Hp a (list_elem_of_lookup_2 _ _ _ Hi)) as Hpa.
  pose proof (Hp b (list_elem_of_lookup_2 _ _ _ Hj)) as Hpb.
  simpl in *. unfold adjacent.
  destruct (String.eqb_spec (dev b) (dev a)) as [Hd|Hd]; [|done]. simpl.
  apply Z.eqb_neq.
  destruct (Nat.lt_total i j) as [Hlt|[Heq|Hgt]]; [|done|].
  - pose proof (StronglySorted_lookup _ _ _ _ _ _ Hl Hlt Hi Hj) as H.
    specialize (H ltac:(congruence)). unfold seg_end in H. lia.
  - pose proof (StronglySorted_lookup _ _ _ _ _ _ Hl Hgt Hj Hi) as H.
    specialize (H Hd). unfold seg_end in H. lia.
Qed.

(** ** The scenarios of the specification *)

Example scenario_add_volume :
  VM.size vm_with_v "v" = Ok 30 vm_with_v
  /\ VM.free_space vm_with_v = 70
  /\ VM.targets vm_with_v "v" = Ok [mkLinearTarget 30 "d0" 0] vm_with_v.
Proof. repeat split. Qed.

Example scenario_remove_volume :
  exists vm,
    VM.remove_volume vm_with_v "v" = Ok tt vm
    /\ VM.free_space vm = 100
    /\ VM.segments vm "v" = Raise (VolumeError "Volume 'v' doesn't exist") vm.
Proof. eexists. repeat split. Qed.

Example scenario_coalesce_at_registration (dev_size : string -> Z) :
  bind (VM.add_allocation_volume dev_size VM.__init__ "d0" 0 (Some 10))
    (fun _ vm => VM.add_allocation_volume dev_size vm "d0" 10 (Some 10))
  = Ok tt (VM.mk (Allocator.mk [mkSegment "d0" 0 20]) ∅)
  /\ Allocator.allocate_segments (Allocator.mk [mkSegment "d0" 0 20]) 20 None
     = Ok [mkSegment "d0" 0 20] (Allocator.mk []).
Proof. split; reflexivity. Qed.

Example scenario_out_of_space :
  Allocator.allocate_segments (Allocator.mk [d0_0_100]) 101 None
  = Raise (SegmentAllocationError "Out of space in the segment allocator")
      (Allocator.mk []).
Proof. reflexivity. Qed.

(** * The claims *)

(** ** Allocation *)

Lemma allocate_segments_inv a size pred result a' :
  Allocator.allocate_segments a size pred = Ok result a' ->
  allocate_loop size (eligible pred a) [] = Ok result (Allocator._free_segments a').
Proof.
  unfold Allocator.allocate_segments, eligible.
  destruct pred as [p|];
    destruct (allocate_loop _ _ _); intros [= <- <-]; done.
Qed.

(** C1.  With a predicate, the entries of the free pool that do not match
    it are not kept: the pool becomes what is left of the matching entries.
    From the pool (d0,0,10), (d1,0,10), allocating 5 on d0 returns (d0,0,5)
    and leaves the pool (d0,5,5) alone: (d1,0,10) is gone, while the same
    request without a predicate keeps it. *)
Theorem allocate_segments_predicate_drops_rest :
  Allocator.allocate_segments two_devices 5 (Some on_d0)
    = Ok [mkSegment "d0" 0 5] (Allocator.mk [mkSegment "d0" 5 5])
  /\ on_d0 (mkSegment "d1" 0 10) = false
  /\ In (mkSegment "d1" 0 10) (Allocator._free_segments two_devices)
  /\ ~ In (mkSegment "d1" 0 10) [mkSegment "d0" 5 5]
  /\ Allocator.allocate_segments two_devices 5 None
    = Ok [mkSegment "d0" 0 5]
         (Allocator.mk [mkSegment "d0" 5 5; mkSegment "d1" 0 10]).
Proof.
  repeat split; try reflexivity.
  - right. by left.
  - intros [[=]|[]].
Qed.

(** C5.  From a pool of pairwise non-overlapping entries, a successful
    allocation of [size > 0] returns pairwise non-overlapping extents whose
    lengths sum to exactly [size], each a sub-range of an entry of the pool
    as it was before the call. *)
Theorem allocate_segments_partition a size pred result a' :
  pairwise_disjoint (Allocator._free_segments a) = true ->
  0 < size ->
  Allocator.allocate_segments a size pred = Ok result a' ->
  pairwise_disjoint result = true
  /\ total_length result = size
  /\ Forall (fun s => exists f, In f (Allocator._free_segments a)
                                /\ sub_range s f = true) result.
Proof.
  intros Hpool Hsize Hcall%allocate_segments_inv.
  apply allocate_loop_carved in Hcall; [|done].
  split; [|split].
  - apply (carved_disjoint _ _ _ _ Hcall).
    destruct pred; simpl; [by apply pairwise_disjoint_filter | done].
  - by apply (carved_total _ _ _ _ Hcall).
  - eapply Forall_impl; [apply (carved_sub_range _ _ _ _ Hcall)|].
    intros s (f & Hf & Hsub). exists f. split; [|done].
    destruct pred; simpl in Hf; [by apply filter_In in Hf as [? _] | done].
Qed.

Lemma allocate_segments_partition_witness :
  pairwise_disjoint (Allocator._free_segments two_devices) = true
  /\ 0 < 15
  /\ pairwise_disjoint [mkSegment "d0" 0 10; mkSegment "d1" 0 5] = true
  /\ total_length [mkSegment "d0" 0 10; mkSegment "d1" 0 5] = 15.
Proof.
  assert (pairwise_disjoint (Allocator._free_segments two_devices) = true) as H1
    by reflexivity.
  assert (0 < 15) as H2 by lia.
  split; [exact H1|]. split; [exact H2|].
  pose proof (allocate_segments_partition two_devices 15 None
    [mkSegment "d0" 0 10; mkSegment "d1" 0 5]
    (Allocator.mk [mkSegment "d1" 5 5]) H1 H2 eq_refl) as (Hd & Ht & _).
  split; [exact Hd | exact Ht].
Defined.

(** C6 (amended).  For [size > 0] the call raises exactly when the
    candidates run out before what was taken amounts to [size]; what it
    raises is always the allocation error; after the failure the free pool
    is empty when no predicate was given, and it is the pool as it was
    before the call when one was given. *)
Theorem allocate_segments_failure a size pred :
  0 < size ->
  ((exists e a', Allocator.allocate_segments a size pred = Raise e a')
     <-> exhausted size (eligible pred a))
  /\ (forall e a',
        Allocator.allocate_segments a size pred = Raise e a' ->
        e = SegmentAllocationError "Out of space in the segment allocator"
        /\ a' = match pred with
                | None => Allocator.mk []
                | Some _ => a
                end).
Proof.
  intros Hsize. split.
  - rewrite <- exhaustedb_spec.
    pose proof (allocate_loop_succeeds size (eligible pred a) []) as H.
    unfold Allocator.allocate_segments, eligible in *.
    destruct pred as [p|];
      destruct (allocate_loop _ _ _) eqn:E; simpl in H;
      apply negb_sym in H; simpl in H; rewrite H;
      split; try done; try (intros (? & ? & [=])); eauto.
  - intros e a'. unfold Allocator.allocate_segments.
    destruct pred as [p|];
      destruct (allocate_loop _ _ _) eqn:E; intros [= <- <-];
      apply allocate_loop_raise in E as [-> ->]; done.
Qed.

Lemma allocate_segments_failure_witness :
  0 < 10
  /\ exhausted 10 (eligible None small_pool)
  /\ Allocator.allocate_segments small_pool 10 None
     = Raise (SegmentAllocationError "Out of space in the segment allocator")
         (Allocator.mk []).
Proof.
  assert (0 < 10) as H by lia.
  split; [exact H|].
  destruct (allocate_segments_failure small_pool 10 None H) as [Hiff Hraise].
  split.
  - apply Hiff. eexists _, _. reflexivity.
  - reflexivity.
Defined.

(** C6, as stated, fails with a predicate: the entry popped from the
    candidates before the failure is still in the free pool after it. *)
Lemma allocate_segments_failure_with_predicate :
  Allocator.allocate_segments small_pool 10 (Some any_segment)
    = Raise (SegmentAllocationError "Out of space in the segment allocator")
        small_pool
  /\ eligible (Some any_segment) small_pool = [mkSegment "d0" 0 5]
  /\ In (mkSegment "d0" 0 5) (Allocator._free_segments small_pool).
Proof. repeat split; try reflexivity. by left. Qed.

(** ** Release *)

Lemma release_segments_inv a X a' :
  Allocator.release_segments a X = Ok tt a' ->
  exists s segs,
    sort_by_key (Allocator._free_segments a ++ X) = s :: segs
    /\ Allocator._free_segments a' = coalesce s segs.
Proof.
  unfold Allocator.release_segments.
  destruct (decide (Allocator._free_segments a ++ X = [])) as [E|E].
  - by rewrite E, merge_nil.
  - destruct (merge_nonempty _ E) as (s & segs & Hs & ->).
    intros [= <-]. eauto.
Qed.

Lemma release_segments_nonempty a X :
  Allocator._free_segments a ++ X <> [] ->
  exists s segs,
    sort_by_key (Allocator._free_segments a ++ X) = s :: segs
    /\ Allocator.release_segments a X = Ok tt (Allocator.mk (coalesce s segs)).
Proof.
  intros E. unfold Allocator.release_segments.
  destruct (merge_nonempty _ E) as (s & segs & Hs & ->). eauto.
Qed.

(** Releasing nothing into an empty pool pops from an empty list. *)
Lemma release_segments_empty_pool :
  Allocator.release_segments Allocator.__init__ []
  = Raise (IndexError "pop from empty list") Allocator.__init__.
Proof. reflexivity. Qed.

(** C3.  Releasing nothing into an empty pool does not succeed: [_merge]
    pops from the empty list, and the call raises [IndexError], the
    allocator staying as it was.  Whenever the pool and [X] are not both
    empty the release succeeds and the free space grows by the total length
    of [X]; releasing nothing into a pool that is not empty then keeps the
    free space, and keeps the multiset of free extents when the pool, once
    sorted, has no entry followed by one to merge with. *)
Theorem release_segments_raises_on_empty :
  (forall a,
     Allocator._free_segments a = [] ->
     Allocator.release_segments a [] = Raise (IndexError "pop from empty list") a)
  /\ (forall a X,
        Allocator._free_segments a ++ X <> [] ->
        exists a',
          Allocator.release_segments a X = Ok tt a'
          /\ Allocator.free_space a' = Allocator.free_space a + total_length X)
  /\ (forall a,
        Allocator._free_segments a <> [] ->
        no_adjacent_neighbours (sort_by_key (Allocator._free_segments a)) = true ->
        exists a',
          Allocator.release_segments a [] = Ok tt a'
          /\ Allocator.free_space a' = Allocator.free_space a
          /\ Permutation (Allocator._free_segments a') (Allocator._free_segments a)).
Proof.
  split; [|split].
  - intros [pool] Hpool. simpl in Hpool. subst pool. reflexivity.
  - intros a X (s & segs & Hs & Hr)%release_segments_nonempty.
    eexists. split; [exact Hr|].
    unfold Allocator.free_space. simpl. fold (total_length (coalesce s segs)).
    fold (total_length (Allocator._free_segments a)).
    rewrite coalesce_total, <- Hs, <- total_length_app.
    apply total_length_perm, sort_by_key_perm.
  - intros a Hne Hadj.
    destruct (release_segments_nonempty a []) as (s & segs & Hs & Hr).
    { by rewrite app_nil_r. }
    rewrite app_nil_r in Hs. rewrite Hs in Hadj.
    rewrite (coalesce_id _ _ Hadj), <- Hs in Hr.
    eexists. split; [exact Hr|].
    pose proof (sort_by_key_perm (Allocator._free_segments a)) as Hperm.
    split; [|exact Hperm].
    unfold Allocator.free_space. simpl.
    fold (total_length (sort_by_key (Allocator._free_segments a))).
    fold (total_length (Allocator._free_segments a)).
    by apply total_length_perm.
Qed.

Lemma release_segments_raises_on_empty_witness :
  Allocator._free_segments Allocator.__init__ = []
  /\ Allocator.release_segments Allocator.__init__ []
     = Raise (IndexError "pop from empty list") Allocator.__init__
  /\ Allocator._free_segments small_pool ++ [mkSegment "d0" 5 5] <> []
  /\ (exists a',
        Allocator.release_segments small_pool [mkSegment "d0" 5 5] = Ok tt a'
        /\ Allocator.free_space a'
           = Allocator.free_space small_pool + total_length [mkSegment "d0" 5 5])
  /\ Allocator._free_segments small_pool <> []
  /\ no_adjacent_neighbours (sort_by_key (Allocator._free_segments small_pool)) = true
  /\ (exists a',
        Allocator.release_segments small_pool [] = Ok tt a'
        /\ Allocator.free_space a' = Allocator.free_space small_pool
        /\ Permutation (Allocator._free_segments a')
             (Allocator._free_segments small_pool)).
Proof.
  assert (Allocator._free_segments Allocator.__init__ = []) as H1 by reflexivity.
  assert (Allocator._free_segments small_pool ++ [mkSegment "d0" 5 5] <> [])
    as H2 by discriminate.
  assert (Allocator._free_segments small_pool <> []) as H3 by discriminate.
  assert (no_adjacent_neighbours
            (sort_by_key (Allocator._free_segments small_pool)) = true) as H4
    by reflexivity.
  destruct release_segments_raises_on_empty as (Hempty & Hcons & Hnil).
  split; [exact H1|]. split; [exact (Hempty Allocator.__init__ H1)|].
  split; [exact H2|].
  split; [exact (Hcons small_pool [mkSegment "d0" 5 5] H2)|].
  split; [exact H3|]. split; [exact H4|].
  exact (Hnil small_pool H3 H4).
Defined.

(** Releasing nothing still merges what can be merged: after (d0,0,10),
    (d0,5,2), (d0,10,1) are released and 6 are allocated, releasing nothing
    merges (d0,6,4) with (d0,10,1). *)
Lemma release_nothing_merges :
  Allocator.release_segments Allocator.__init__ overlapping'
    = Ok tt (Allocator.mk overlapping')
  /\ Allocator.allocate_segments (Allocator.mk overlapping') 6 None
    = Ok [mkSegment "d0" 0 6]
         (Allocator.mk [mkSegment "d0" 6 4; mkSegment "d0" 5 2; mkSegment "d0" 10 1])
  /\ Allocator.release_segments
       (Allocator.mk [mkSegment "d0" 6 4; mkSegment "d0" 5 2; mkSegment "d0" 10 1]) []
    = Ok tt (Allocator.mk [mkSegment "d0" 5 2; mkSegment "d0" 6 5])
  /\ ~ Permutation [mkSegment "d0" 6 4; mkSegment "d0" 5 2; mkSegment "d0" 10 1]
                   [mkSegment "d0" 5 2; mkSegment "d0" 6 5].
Proof.
  repeat split; try reflexivity.
  intros H%Permutation_length. discriminate.
Qed.

(** C7 (amended).  After a release the free pool is sorted by (device,
    offset) and no entry is followed by one that starts, on the same
    device, where it ends; when the extents of the pool and of [X] have
    positive lengths and do not overlap one another, no two entries of the
    pool at all are such. *)
Theorem release_segments_coalesced a X a' :
  Allocator.release_segments a X = Ok tt a' ->
  sorted_by_key (Allocator._free_segments a')
  /\ no_adjacent_neighbours (Allocator._free_segments a') = true
  /\ (positive_lengths (Allocator._free_segments a ++ X) ->
      pairwise_disjoint (Allocator._free_segments a ++ X) = true ->
      no_adjacent_pair (Allocator._free_segments a')).
Proof.
  intros (s & segs & Hs & ->)%release_segments_inv.
  pose proof (sort_by_key_sorted (Allocator._free_segments a ++ X)) as Hsorted.
  pose proof (sort_by_key_perm (Allocator._free_segments a ++ X)) as Hperm.
  rewrite Hs in *.
  split; [by apply coalesce_sorted|].
  split; [apply coalesce_no_adjacent_neighbours|].
  intros Hpos Hdis.
  assert (positive_lengths (s :: segs)) as Hpos'.
  { unfold positive_lengths. by rewrite Hperm. }
  apply strict_no_adjacent_pair; [|by apply coalesce_positive].
  apply precedes_strict.
  - apply coalesce_precedes, sorted_disjoint_precedes; [done| |done].
    apply (pairwise_disjoint_perm _ _ (Permutation_sym Hperm) Hdis).
  - by apply coalesce_positive.
  - apply coalesce_no_adjacent_neighbours.
Qed.

Lemma release_segments_coalesced_witness :
  Allocator.release_segments small_pool [mkSegment "d0" 5 5]
    = Ok tt (Allocator.mk [mkSegment "d0" 0 10])
  /\ sorted_by_key [mkSegment "d0" 0 10]
  /\ no_adjacent_neighbours [mkSegment "d0" 0 10] = true
  /\ no_adjacent_pair [mkSegment "d0" 0 10].
Proof.
  assert (Allocator.release_segments small_pool [mkSegment "d0" 5 5]
          = Ok tt (Allocator.mk [mkSegment "d0" 0 10])) as H by reflexivity.
  split; [exact H|].
  destruct (release_segments_coalesced _ _ _ H) as (H1 & H2 & H3).
  split; [exact H1|]. split; [exact H2|].
  apply H3; [repeat constructor; simpl; lia | reflexivity].
Defined.

(** C7, as stated, fails when released extents overlap: (d0,0,10) and
    (d0,10,5) stay apart in the pool, kept from merging by (d0,5,1) between
    them, although the second starts where the first ends. *)
Lemma release_overlapping_keeps_adjacent_pair :
  Allocator.release_segments Allocator.__init__ overlapping
    = Ok tt (Allocator.mk overlapping)
  /\ ~ no_adjacent_pair overlapping.
Proof.
  split; [reflexivity|].
  intros H.
  specialize (H 0%nat 2%nat (mkSegment "d0" 0 10) (mkSegment "d0" 10 5)
                ltac:(lia) eq_refl eq_refl).
  discriminate H.
Qed.

(** ** Volumes *)

(** A volume that was allocated from a non-negative length owns exactly
    that length, and growing it keeps it so. *)
Lemma allocate_size self a pred self' a' :
  0 <= Volume._length self ->
  LinearVolume.allocate self a pred = Ok tt (self', a') ->
  Volume._allocated self' = true
  /\ Volume.size self' = Volume._length self'.
Proof.
  intros Hlen. unfold LinearVolume.allocate.
  destruct (Allocator.allocate_segments a (Volume._length self) pred)
    as [segs a''|] eqn:E; intros [= <- <-]; simpl.
  split; [done|]. unfold Volume.size. simpl. fold (total_length segs).
  destruct (Z_lt_le_dec 0 (Volume._length self)) as [Hpos|Hz].
  - apply allocate_segments_inv, allocate_loop_carved in E; [|done].
    by apply (carved_total _ _ _ _ E).
  - apply allocate_segments_inv in E. rewrite allocate_loop_done in E by done.
    injection E as <- _. rewrite total_length_nil. lia.
Qed.


(** C8.  A successful resize of an allocated linear volume to a greater
    length appends what the allocator returned for the difference: the
    segments and the targets owned before are a prefix of those owned
    after, each at its index, and the new targets are those of the new
    segments. *)
Theorem resize_grow_appends self a new_length pred self' a' :
  Volume._allocated self = true ->
  Volume._length self < new_length ->
  LinearVolume.resize self a new_length pred = Ok tt (self', a') ->
  exists new_segs,
    Allocator.allocate_segments a (new_length - Volume._length self) pred
      = Ok new_segs a'
    /\ Volume._segments self' = Volume._segments self ++ new_segs
    /\ Volume._targets self' = Volume._targets self ++ _segs_to_targets new_segs
    /\ (forall i s, Volume._segments self !! i = Some s ->
                    Volume._segments self' !! i = Some s)
    /\ (forall i t, Volume._targets self !! i = Some t ->
                    Volume._targets self' !! i = Some t).
Proof.
  intros Hal Hlt. unfold LinearVolume.resize. rewrite Hal. simpl.
  destruct (Z.ltb_spec new_length (Volume._length self)); [lia|].
  destruct (Allocator.allocate_segments a _ pred) as [segs a''|] eqn:E;
    intros [= <- <-]; simpl.
  exists segs. repeat split; try done.
  - intros i s Hi. by apply lookup_app_l_Some.
  - intros i t Hi. by apply lookup_app_l_Some.
Qed.

Lemma resize_grow_appends_witness :
  Volume._allocated volume_v = true
  /\ Volume._length volume_v < 50
  /\ exists self' a' new_segs,
       LinearVolume.resize volume_v (Allocator.mk [mkSegment "d0" 30 70]) 50 None
         = Ok tt (self', a')
       /\ Volume._segments self' = Volume._segments volume_v ++ new_segs.
Proof.
  assert (Volume._allocated volume_v = true) as H1 by reflexivity.
  assert (Volume._length volume_v < 50) as H2 by (simpl; lia).
  split; [exact H1|]. split; [exact H2|].
  eexists _, _.
  destruct (resize_grow_appends volume_v (Allocator.mk [mkSegment "d0" 30 70])
              50 None _ _ H1 H2 eq_refl) as (new_segs & _ & Hs & _).
  exists new_segs. split; [reflexivity | exact Hs].
Defined.





(** ** The volume manager *)

(** The state of the scenario is the one the manager reaches by registering
    ("d0", 0, 100) and adding the linear volume "v" of length 30. *)
Lemma vm_with_v_reached (dev_size : string -> Z) :
  bind (VM.add_allocation_volume dev_size VM.__init__ "d0" 0 (Some 100))
    (fun _ vm => VM.add_volume vm (LinearVolume.__init__ "v" 30) None)
  = Ok tt vm_with_v.
Proof. reflexivity. Qed.

(** The name the body of [VM.resize] passes on is bound nowhere. *)
Lemma segment_preicate_unbound :
  existsb (String.eqb "segment_preicate") ("segment_predicate"%string :: module_names)
  = false.
Proof. reflexivity. Qed.

Lemma check_exists_present vm name vol :
  VM._volumes vm !! name = Some vol -> VM._check_exists vm name = Ok tt vm.
Proof.
  intros H. unfold VM._check_exists. rewrite H.
  destruct (decide (is_Some (Some vol))) as [|n]; [done|].
  destruct n. by eexists.
Qed.

Lemma check_exists_absent vm name :
  VM._volumes vm !! name = None ->
  VM._check_exists vm name
  = Raise (VolumeError ("Volume '" +:+ name +:+ "' doesn't exist")) vm.
Proof.
  intros H. unfold VM._check_exists. rewrite H.
  destruct (decide (is_Some None)) as [[? [=]]|]; done.
Qed.

(** Past the existence check, [VM.resize] never reaches the volume. *)
Lemma VM_resize_present vm name vol new_size pred :
  VM._volumes vm !! name = Some vol ->
  VM.resize vm name new_size pred
  = Raise (NameError "name 'segment_preicate' is not defined") vm.
Proof.
  intros H. unfold VM.resize. rewrite (check_exists_present _ _ _ H). simpl.
  unfold VM.getitem. rewrite H. reflexivity.
Qed.

(** C2.  In the state with free extent (d0,30,70) and the allocated volume
    "v" of size 30, [VM.resize "v" 50] passes the existence check and then
    raises [NameError], leaving "v" at size 30 and the free space at 70;
    the resize of the volume it was to delegate to does give size 50, free
    space 50 and the targets (30,d0,0), (20,d0,30). *)
Theorem VM_resize_raises_NameError :
  VM._check_exists vm_with_v "v" = Ok tt vm_with_v
  /\ VM.resize vm_with_v "v" 50 None
     = Raise (NameError "name 'segment_preicate' is not defined") vm_with_v
  /\ VM.size vm_with_v "v" = Ok 30 vm_with_v
  /\ VM.free_space vm_with_v = 70
  /\ exists vol' a',
       LinearVolume.resize volume_v (VM._allocator vm_with_v) 50 None
       = Ok tt (vol', a')
       /\ Volume.size vol' = 50
       /\ Allocator.free_space a' = 50
       /\ Volume._targets vol'
          = [mkLinearTarget 30 "d0" 0; mkLinearTarget 20 "d0" 30].
Proof.
  split; [reflexivity|]. split; [by eapply VM_resize_present|].
  split; [reflexivity|]. split; [reflexivity|].
  eexists _, _. split; [reflexivity|]. repeat split.
Qed.

(** C4.  For a name the registry does not hold, [VM.segments] and
    [VM.targets] raise [VolumeError], while [VM.size], which looks the name
    up without the existence check, raises [KeyError]; none of the three
    changes the state. *)
Theorem query_unknown_name vm name :
  VM._volumes vm !! name = None ->
  VM.size vm name = Raise (KeyError name) vm
  /\ VM.segments vm name
     = Raise (VolumeError ("Volume '" +:+ name +:+ "' doesn't exist")) vm
  /\ VM.targets vm name
     = Raise (VolumeError ("Volume '" +:+ name +:+ "' doesn't exist")) vm.
Proof.
  intros H. repeat split.
  - unfold VM.size, VM.getitem. by rewrite H.
  - unfold VM.segments. by rewrite (check_exists_absent _ _ H).
  - unfold VM.targets. by rewrite (check_exists_absent _ _ H).
Qed.

Lemma query_unknown_name_witness :
  VM._volumes VM.__init__ !! "v"%string = None
  /\ VM.size VM.__init__ "v" = Raise (KeyError "v") VM.__init__.
Proof.
  assert (VM._volumes VM.__init__ !! "v"%string = None) as H by reflexivity.
  split; [exact H|].
  exact (proj1 (query_unknown_name VM.__init__ "v" H)).
Defined.

(** C10.  [VM.add_volume] with a name already registered raises
    [VolumeError] and leaves the whole state, free pool and registry, as it
    was; with a fresh name, whatever the allocation of the volume raises is
    raised by [add_volume], and the registry is left as it was. *)
Theorem add_volume_failure vm vol pred :
  (is_Some (VM._volumes vm !! Volume._name vol) ->
   VM.add_volume vm vol pred
   = Raise (VolumeError ("Volume '" +:+ Volume._name vol +:+ "' already exists")) vm)
  /\ (forall e vol' a',
        VM._volumes vm !! Volume._name vol = None ->
        call_allocate vol (VM._allocator vm) pred = Raise e (vol', a') ->
        VM.add_volume vm vol pred = Raise e (VM.mk a' (VM._volumes vm)))
  /\ (forall e vm',
        VM.add_volume vm vol pred = Raise e vm' ->
        VM._volumes vm' = VM._volumes vm).
Proof.
  unfold VM.add_volume, VM._check_not_exist. repeat split.
  - intros H. by destruct (decide _).
  - intros e vol' a' H Hal. rewrite H.
    destruct (decide (is_Some None)) as [[? [=]]|]. simpl. by rewrite Hal.
  - intros e vm'. destruct (decide _); simpl; [by intros [= <- <-]|].
    destruct (call_allocate _ _ _) as [[] [v a]|e' [v a]]; [done|].
    by intros [= <- <-].
Qed.

Lemma add_volume_failure_witness :
  is_Some (VM._volumes vm_with_v !! Volume._name volume_v)
  /\ VM.add_volume vm_with_v volume_v None
     = Raise (VolumeError "Volume 'v' already exists") vm_with_v
  /\ VM._volumes VM.__init__ !! Volume._name volume_v = None
  /\ VM.add_volume VM.__init__ volume_v None
     = Raise (SegmentAllocationError "Out of space in the segment allocator")
         VM.__init__.
Proof.
  assert (is_Some (VM._volumes vm_with_v !! Volume._name volume_v)) as H1
    by (by eexists).
  assert (VM._volumes VM.__init__ !! Volume._name volume_v = None) as H2
    by reflexivity.
  split; [exact H1|]. split; [|split; [exact H2|]].
  - exact (proj1 (add_volume_failure vm_with_v volume_v None) H1).
  - exact (proj1 (proj2 (add_volume_failure VM.__init__ volume_v None))
             _ volume_v _ H2 eq_refl).
Defined.

(** * Further properties *)

(** ** One allocation step *)

(** X1.  [_allocate_segment] raises on an empty list; on a list with head
    [x] it returns a segment that starts where [x] starts, is no longer than
    [size], and together with the list it leaves accounts for all the
    length that was in the list. *)
Theorem allocate_segment_contract size segs :
  match segs with
  | [] =>
      _allocate_segment size segs
      = Raise (SegmentAllocationError "Out of space in the segment allocator") []
  | x :: _ =>
      exists s rest,
        _allocate_segment size segs = Ok s rest
        /\ dev s = dev x /\ offset s = offset x
        /\ length s <= size
        /\ length s + total_length rest = total_length segs
  end.
Proof.
  destruct segs as [|x l]; [reflexivity|].
  unfold _allocate_segment. simpl.
  destruct (Z.gtb_spec (length x) size); eexists _, _; (split; [reflexivity|]);
    simpl; rewrite !total_length_cons; simpl; repeat split; lia.
Qed.

(** ** Allocation *)

Lemma total_length_take_le k l :
  nonneg_lengths l -> total_length (take k l) <= total_length l.
Proof.
  unfold nonneg_lengths. revert k. induction l as [|s l IH]; intros k Hl.
  - by rewrite take_nil.
  - apply Forall_cons in Hl as [Hs Hl]. destruct k as [|k]; simpl.
    + rewrite total_length_nil, total_length_cons.
      specialize (IH 0%nat Hl). rewrite take_0, total_length_nil in IH. lia.
    + rewrite !total_length_cons. specialize (IH k Hl). lia.
Qed.

Lemma exhausted_total size l :
  nonneg_lengths l -> exhausted size l <-> total_length l < size.
Proof.
  intros Hl. unfold exhausted. split.
  - intros H. specialize (H (List.length l)). by rewrite firstn_all in H.
  - intros H k. pose proof (total_length_take_le k l Hl). lia.
Qed.

Lemma allocate_segments_succeeds a size pred :
  succeeds (Allocator.allocate_segments a size pred)
  = negb (exhaustedb size (eligible pred a)).
Proof.
  rewrite <- (allocate_loop_succeeds size (eligible pred a) []).
  unfold Allocator.allocate_segments, eligible.
  destruct pred; by destruct (allocate_loop _ _ _).
Qed.

(** X2.  When no candidate has a negative length, an allocation of
    [size > 0] succeeds exactly when the candidates hold at least [size]. *)
Theorem allocate_segments_enough_space a size pred :
  0 < size ->
  nonneg_lengths (eligible pred a) ->
  (exists result a', Allocator.allocate_segments a size pred = Ok result a')
  <-> size <= total_length (eligible pred a).
Proof.
  intros Hsize Hl.
  pose proof (allocate_segments_succeeds a size pred) as H.
  pose proof (exhausted_total size _ Hl) as Hex.
  rewrite <- exhaustedb_spec in Hex.
  destruct (exhaustedb size (eligible pred a)); simpl in H.
  - split.
    + intros (r & a' & E). by rewrite E in H.
    + intros Hle. apply proj1 in Hex. specialize (Hex eq_refl). lia.
  - split.
    + intros _. destruct (Z_lt_le_dec (total_length (eligible pred a)) size) as [Hlt|]; [|done].
      by apply Hex in Hlt.
    + intros _. destruct (Allocator.allocate_segments a size pred); [eauto | done].
Qed.

Lemma allocate_segments_enough_space_witness :
  0 < 15
  /\ nonneg_lengths (eligible None two_devices)
  /\ 15 <= total_length (eligible None two_devices)
  /\ exists result a', Allocator.allocate_segments two_devices 15 None = Ok result a'.
Proof.
  assert (0 < 15) as H1 by lia.
  assert (nonneg_lengths (eligible None two_devices)) as H2
    by (repeat constructor; simpl; lia).
  assert (15 <= total_length (eligible None two_devices)) as H3
    by (vm_compute; discriminate).
  split; [exact H1|]. split; [exact H2|]. split; [exact H3|].
  exact (proj2 (allocate_segments_enough_space two_devices 15 None H1 H2) H3).
Defined.

Lemma carved_rest_total size segs r rest :
  carved size segs r rest -> total_length rest = total_length segs - size.
Proof.
  intros [-> H | taken x tl n -> -> -> Hn H].
  - rewrite total_length_app. lia.
  - rewrite total_length_app, !total_length_cons. simpl. lia.
Qed.

(** X3.  A successful allocation of [size > 0] leaves as free space what the
    candidates held less [size]; without a predicate the free space drops
    by exactly [size]. *)
Theorem allocate_segments_free_space a size pred result a' :
  0 < size ->
  Allocator.allocate_segments a size pred = Ok result a' ->
  Allocator.free_space a' = total_length (eligible pred a) - size
  /\ (pred = None -> Allocator.free_space a' = Allocator.free_space a - size).
Proof.
  intros Hsize Hcall%allocate_segments_inv.
  apply allocate_loop_carved in Hcall; [|done].
  apply carved_rest_total in Hcall.
  split; [exact Hcall|]. by intros ->.
Qed.

Lemma allocate_segments_free_space_witness :
  0 < 15
  /\ Allocator.allocate_segments two_devices 15 None
     = Ok [mkSegment "d0" 0 10; mkSegment "d1" 0 5] (Allocator.mk [mkSegment "d1" 5 5])
  /\ Allocator.free_space (Allocator.mk [mkSegment "d1" 5 5])
     = Allocator.free_space two_devices - 15.
Proof.
  assert (0 < 15) as H1 by lia.
  split; [exact H1|]. split; [reflexivity|].
  exact (proj2 (allocate_segments_free_space two_devices 15 None _ _ H1 eq_refl)
           eq_refl).
Defined.

(** X4.  An allocation of a size that is not positive returns no segment
    and never fails; it leaves the pool as it is without a predicate, and
    replaces it by its matching entries with one. *)
Theorem allocate_segments_nothing a size pred :
  size <= 0 ->
  Allocator.allocate_segments a size pred
  = Ok [] (Allocator.mk (eligible pred a))
  /\ (pred = None -> Allocator.allocate_segments a size pred = Ok [] a).
Proof.
  intros Hsize. unfold Allocator.allocate_segments, eligible.
  destruct pred; rewrite allocate_loop_done by done; split; try done.
  intros _. by destruct a.
Qed.

Lemma allocate_segments_nothing_witness :
  0 <= 0
  /\ Allocator.allocate_segments two_devices 0 (Some on_d0)
     = Ok [] (Allocator.mk [mkSegment "d0" 0 10]).
Proof.
  assert (0 <= 0) as H by lia.
  split; [exact H|].
  exact (proj1 (allocate_segments_nothing two_devices 0 (Some on_d0) H)).
Defined.

(** ** Well-formed pools *)

Lemma StronglySorted_impl (R1 R2 : Segment -> Segment -> Prop) l :
  (forall a b, R1 a b -> R2 a b) -> StronglySorted R1 l -> StronglySorted R2 l.
Proof.
  intros HR. induction 1 as [|x l Hl IH Hx]; constructor; [done|].
  eapply Forall_impl; [exact Hx | auto].
Qed.

Lemma StronglySorted_conj (R1 R2 : Segment -> Segment -> Prop) l :
  StronglySorted R1 l -> StronglySorted R2 l ->
  StronglySorted (fun a b => R1 a b /\ R2 a b) l.
Proof.
  induction 1 as [|x l Hl IH Hx]; [constructor|].
  intros [H2 Hx2]%StronglySorted_inv. constructor; [by apply IH|].
  rewrite Forall_forall in Hx, Hx2. apply Forall_forall. auto.
Qed.

Lemma separated_disjoint a b :
  0 < length a -> 0 < length b -> separated a b -> overlaps a b = false.
Proof.
  intros Ha Hb [_ H]. unfold overlaps.
  destruct (String.eqb_spec (dev a) (dev b)) as [E|]; [|done]. simpl.
  specialize (H E). unfold seg_end in *. apply Z.ltb_ge. lia.
Qed.

Lemma separated_not_adjacent a b : separated a b -> adjacent a b = false.
Proof.
  intros [_ H]. unfold adjacent.
  destruct (String.eqb_spec (dev b) (dev a)) as [E|]; [|done]. simpl.
  specialize (H (eq_sym E)). unfold seg_end in *. apply Z.eqb_neq. lia.
Qed.

Lemma separated_key_strict a b : 0 < length a -> separated a b -> key_strict a b.
Proof.
  intros Ha [Hk H]. unfold key_strict, key_lt. apply key_le_spec in Hk.
  destruct (String.eqb_spec (dev a) (dev b)) as [E|E].
  - specialize (H E). unfold seg_end in *. apply Z.ltb_lt. lia.
  - destruct Hk as [Hk|[? _]]; [|done]. unfold String.ltb. by rewrite Hk.
Qed.

Lemma well_formed_sorted l : well_formed_pool l -> sorted_by_key l.
Proof. intros [_ H]. eapply StronglySorted_impl; [|exact H]. by intros a b [? _]. Qed.

Lemma well_formed_disjoint l : well_formed_pool l -> pairwise_disjoint l = true.
Proof.
  intros [Hp Hs]. unfold positive_lengths in Hp.
  induction Hs as [|x l Hl IH Hx]; [done|].
  apply Forall_cons in Hp as [Hpx Hpl]. simpl.
  apply andb_true_iff. split; [|by apply IH].
  apply forallb_forall. intros b Hb%list_elem_of_In.
  rewrite Forall_forall in Hx, Hpl.
  apply negb_true_iff, separated_disjoint; [done | by apply Hpl | by apply Hx].
Qed.

Lemma well_formed_no_adjacent_neighbours l :
  well_formed_pool l -> no_adjacent_neighbours l = true.
Proof.
  intros [_ Hs]. induction Hs as [|x l Hl IH Hx]; [done|].
  destruct l as [|y l]; [done|].
  change (negb (adjacent x y) && no_adjacent_neighbours (y :: l) = true).
  apply Forall_cons in Hx as [Hxy _].
  by rewrite (separated_not_adjacent x y), IH.
Qed.

Lemma well_formed_key_strict l :
  well_formed_pool l -> StronglySorted key_strict l.
Proof.
  intros [Hp Hs]. unfold positive_lengths in Hp.
  induction Hs as [|x l Hl IH Hx]; [constructor|].
  apply Forall_cons in Hp as [Hpx Hpl].
  constructor; [by apply IH|].
  eapply Forall_impl; [exact Hx|]. intros b. by apply separated_key_strict.
Qed.

Lemma well_formed_filter p l :
  well_formed_pool l -> well_formed_pool (List.filter p l).
Proof.
  intros [Hp Hs]. unfold well_formed_pool, positive_lengths in *.
  induction Hs as [|x l Hl IH Hx]; [by split; constructor|].
  apply Forall_cons in Hp as [Hpx Hpl]. destruct (IH Hpl) as [IH1 IH2].
  simpl. destruct (p x); [|done].
  split; [by constructor|]. constructor; [done|].
  rewrite Forall_forall in Hx. apply Forall_forall.
  intros b [Hb _]%list_elem_of_In%filter_In. by apply Hx, list_elem_of_In.
Qed.

Lemma well_formed_app l1 l2 :
  well_formed_pool (l1 ++ l2) -> well_formed_pool l1 /\ well_formed_pool l2.
Proof.
  intros [[Hp1 Hp2]%Forall_app Hs]. unfold well_formed_pool, positive_lengths.
  apply StronglySorted_app in Hs as (_ & H1 & H2). done.
Qed.

Lemma separated_tail x b n :
  0 < n < length x -> separated x b ->
  separated (mkSegment (dev x) (offset x + n) (length x - n)) b.
Proof.
  intros Hn [Hk H]. split.
  - apply key_le_spec. apply key_le_spec in Hk. simpl.
    destruct Hk as [Hk|[E Ho]]; [by left|]. right. split; [done|].
    specialize (H E). unfold seg_end in H. lia.
  - intros E. specialize (H E). unfold seg_end in *. simpl in *. lia.
Qed.

Lemma carved_well_formed size segs r rest :
  carved size segs r rest ->
  well_formed_pool segs -> well_formed_pool r /\ well_formed_pool rest.
Proof.
  intros [-> _ | taken x tl n -> -> -> Hn _] Hwf.
  - by apply well_formed_app.
  - apply well_formed_app in Hwf as Hparts. destruct Hparts as [Ht [Hpx Hsx]].
    destruct Hwf as [_ Hs]. apply StronglySorted_app in Hs as (Hcross & _ & _).
    apply Forall_cons in Hpx as [Hpx Hptl].
    apply StronglySorted_inv in Hsx as [Hstl Hx].
    split; split.
    + apply Forall_app. split; [apply Ht|]. repeat constructor. simpl. lia.
    + apply StronglySorted_app_2; [|apply Ht|repeat constructor].
      intros t b Ht' ->%list_elem_of_singleton.
      destruct (Hcross t x Ht' ltac:(by left)) as [Hk He].
      split; [by apply (key_le_key_r t x)|]. exact He.
    + constructor; [simpl; lia | done].
    + constructor; [done|].
      eapply Forall_impl; [exact Hx|]. intros b. by apply separated_tail.
Qed.

(** X5.  Allocation keeps a pool well formed: from a pool of positive,
    address-ordered extents that neither overlap nor touch, whatever a
    successful call leaves is such a pool again, and what it returns is in
    address order too. *)
Theorem allocate_segments_well_formed a size pred result a' :
  well_formed_pool (Allocator._free_segments a) ->
  Allocator.allocate_segments a size pred = Ok result a' ->
  well_formed_pool (Allocator._free_segments a') /\ well_formed_pool result.
Proof.
  intros Hwf Hcall%allocate_segments_inv.
  assert (well_formed_pool (eligible pred a)) as Hel.
  { destruct pred; simpl; [by apply well_formed_filter | done]. }
  destruct (Z_lt_le_dec 0 size) as [Hpos|Hz].
  - apply allocate_loop_carved in Hcall; [|done].
    destruct (carved_well_formed _ _ _ _ Hcall Hel). done.
  - rewrite allocate_loop_done in Hcall by done. injection Hcall as <- <-.
    split; [done | by split; constructor].
Qed.

Lemma allocate_segments_well_formed_witness :
  well_formed_pool (Allocator._free_segments two_devices)
  /\ well_formed_pool [mkSegment "d1" 5 5]
  /\ well_formed_pool [mkSegment "d0" 0 10; mkSegment "d1" 0 5].
Proof.
  assert (well_formed_pool (Allocator._free_segments two_devices)) as H.
  { split; [repeat constructor; simpl; lia|].
    repeat constructor. intros [=]. }
  split; [exact H|].
  exact (allocate_segments_well_formed two_devices 15 None _
           (Allocator.mk [mkSegment "d1" 5 5]) H eq_refl).
Defined.

(** X6.  Releasing extents of positive length that overlap neither one
    another nor the free extents, all of positive length too, leaves a well
    formed pool. *)
Theorem release_segments_well_formed a X a' :
  positive_lengths (Allocator._free_segments a ++ X) ->
  pairwise_disjoint (Allocator._free_segments a ++ X) = true ->
  Allocator.release_segments a X = Ok tt a' ->
  well_formed_pool (Allocator._free_segments a').
Proof.
  intros Hpos Hdis (s & segs & Hs & ->)%release_segments_inv.
  pose proof (sort_by_key_sorted (Allocator._free_segments a ++ X)) as Hsorted.
  pose proof (sort_by_key_perm (Allocator._free_segments a ++ X)) as Hperm.
  rewrite Hs in *.
  assert (positive_lengths (s :: segs)) as Hpos'.
  { unfold positive_lengths. by rewrite Hperm. }
  split; [by apply coalesce_positive|].
  apply StronglySorted_conj.
  - by apply coalesce_sorted.
  - apply precedes_strict.
    + apply coalesce_precedes, sorted_disjoint_precedes; [done| |done].
      apply (pairwise_disjoint_perm _ _ (Permutation_sym Hperm) Hdis).
    + by apply coalesce_positive.
    + apply coalesce_no_adjacent_neighbours.
Qed.

Lemma release_segments_well_formed_witness :
  positive_lengths (Allocator._free_segments small_pool ++ [mkSegment "d0" 5 5])
  /\ pairwise_disjoint (Allocator._free_segments small_pool ++ [mkSegment "d0" 5 5]) = true
  /\ well_formed_pool [mkSegment "d0" 0 10].
Proof.
  assert (positive_lengths
            (Allocator._free_segments small_pool ++ [mkSegment "d0" 5 5])) as H1
    by (repeat constructor; simpl; lia).
  assert (pairwise_disjoint
            (Allocator._free_segments small_pool ++ [mkSegment "d0" 5 5]) = true)
    as H2 by reflexivity.
  split; [exact H1|]. split; [exact H2|].
  exact (release_segments_well_formed small_pool [mkSegment "d0" 5 5]
           (Allocator.mk [mkSegment "d0" 0 10]) H1 H2 eq_refl).
Defined.

(** ** Allocation undone by release *)

Lemma key_strict_unique M x1 x2 :
  StronglySorted key_strict M -> x1 ∈ M -> x2 ∈ M ->
  key_le x1 x2 -> key_le x2 x1 -> x1 = x2.
Proof.
  unfold key_strict, key_le.
  induction 1 as [|m M HM IH Hm]; intros H1 H2 H12 H21; [by inv H1|].
  rewrite Forall_forall in Hm.
  apply elem_of_cons in H1 as [->|H1]; apply elem_of_cons in H2 as [->|H2].
  - done.
  - specialize (Hm x2 H2). congruence.
  - specialize (Hm x1 H1). congruence.
  - by apply IH.
Qed.

Lemma sort_by_key_unique L M :
  Permutation L M -> StronglySorted key_strict M -> sort_by_key L = M.
Proof.
  intros Hperm HM.
  apply (StronglySorted_unique_strong key_le).
  - intros x1 x2 H1 H2. apply (key_strict_unique M); [done| |done].
    by rewrite <- Hperm, <- (sort_by_key_perm L).
  - apply sort_by_key_sorted.
  - eapply StronglySorted_impl; [|exact HM]. intros a b. apply key_le_total.
  - by rewrite sort_by_key_perm.
Qed.

Lemma key_strict_key_l a a' b :
  dev a = dev a' -> offset a = offset a' -> key_strict a b -> key_strict a' b.
Proof. unfold key_strict, key_lt. by intros -> ->. Qed.

Lemma key_strict_later a b b' :
  dev b = dev b' -> offset b <= offset b' -> key_strict a b -> key_strict a b'.
Proof.
  unfold key_strict, key_lt. intros <- Ho.
  destruct (String.eqb (dev a) (dev b)); [|done].
  rewrite !Z.ltb_lt. lia.
Qed.

Lemma carved_cross_key_strict size segs r rest :
  carved size segs r rest -> well_formed_pool segs ->
  forall a b, a ∈ r -> b ∈ rest -> key_strict a b.
Proof.
  intros [-> _ | taken x tl n -> -> -> Hn _] Hwf%well_formed_key_strict.
  - intros a b Ha Hb. by apply (StronglySorted_app_1_elem_of _ _ _ _ _ Hwf).
  - apply StronglySorted_app in Hwf as (Hcross & _ & [_ Hx]%StronglySorted_inv).
    rewrite Forall_forall in Hx.
    intros a b [Ha| ->%list_elem_of_singleton]%elem_of_app [->|Hb]%elem_of_cons.
    + apply (key_strict_later a x); [done | simpl; lia |].
      apply Hcross; [done | by left].
    + apply Hcross; [done | by right].
    + unfold key_strict, key_lt. simpl. rewrite String.eqb_refl.
      apply Z.ltb_lt. lia.
    + apply (key_strict_key_l x); [done | done | by apply Hx].
Qed.

Lemma carved_sort size segs r rest :
  carved size segs r rest -> well_formed_pool segs ->
  sort_by_key (rest ++ r) = r ++ rest.
Proof.
  intros Hc Hwf. apply sort_by_key_unique; [apply Permutation_app_comm|].
  destruct (carved_well_formed _ _ _ _ Hc Hwf) as [Hr Hrest].
  apply StronglySorted_app_2; [|by apply well_formed_key_strict..].
  by apply (carved_cross_key_strict _ _ _ _ Hc Hwf).
Qed.

Lemma coalesce_list_id l :
  no_adjacent_neighbours l = true -> coalesce_list l = l.
Proof. destruct l; [done | apply coalesce_id]. Qed.

Lemma coalesce_list_split taken x tl n :
  no_adjacent_neighbours (taken ++ x :: tl) = true ->
  coalesce_list
    (taken ++ mkSegment (dev x) (offset x) n
           :: mkSegment (dev x) (offset x + n) (length x - n) :: tl)
  = taken ++ x :: tl.
Proof.
  assert (forall l, no_adjacent_neighbours (x :: l) = true ->
            coalesce (mkSegment (dev x) (offset x) n)
              (mkSegment (dev x) (offset x + n) (length x - n) :: l) = x :: l)
    as Hbase.
  { intros l Hl. simpl. unfold adjacent at 1. simpl.
    rewrite String.eqb_refl, Z.eqb_refl. simpl.
    replace (n + (length x - n)) with (length x) by lia.
    destruct x. by apply coalesce_id. }
  induction taken as [|t taken IH]; intros Hadj; [by apply Hbase|].
  simpl in *. destruct taken as [|t' taken].
  - simpl in *. apply andb_true_iff in Hadj as [Ht Hadj].
    apply negb_true_iff in Ht.
    rewrite (adjacent_key t x) by done. rewrite Ht.
    f_equal. by apply Hbase.
  - change (negb (adjacent t t')
            && no_adjacent_neighbours ((t' :: taken) ++ x :: tl) = true) in Hadj.
    apply andb_true_iff in Hadj as [Ht Hadj]. apply negb_true_iff in Ht.
    simpl. rewrite Ht. f_equal. by apply IH.
Qed.

Lemma carved_coalesce size segs r rest :
  carved size segs r rest -> no_adjacent_neighbours segs = true ->
  coalesce_list (r ++ rest) = segs.
Proof.
  intros [-> _ | taken x tl n -> -> -> Hn _] Hadj.
  - by apply coalesce_list_id.
  - rewrite <- app_assoc. by apply coalesce_list_split.
Qed.

Lemma release_segments_sorted a X M :
  sort_by_key (Allocator._free_segments a ++ X) = M -> M <> [] ->
  Allocator.release_segments a X = Ok tt (Allocator.mk (coalesce_list M)).
Proof.
  intros HM Hne. unfold Allocator.release_segments.
  destruct M as [|s segs]; [done|].
  by rewrite (merge_sorted_cons _ _ _ HM).
Qed.

(** X7.  On a well formed pool, releasing what a successful allocation of
    [size > 0] returned gives back the candidates exactly as they were:
    without a predicate the allocator is in the state it had before the
    allocation; with one, the pool is its matching entries. *)
Theorem allocate_then_release a size pred result a' :
  well_formed_pool (Allocator._free_segments a) ->
  0 < size ->
  Allocator.allocate_segments a size pred = Ok result a' ->
  Allocator.release_segments a' result
  = Ok tt (Allocator.mk (eligible pred a))
  /\ (pred = None -> Allocator.release_segments a' result = Ok tt a).
Proof.
  intros Hwf Hsize Hcall%allocate_segments_inv.
  assert (well_formed_pool (eligible pred a)) as Hel.
  { destruct pred; simpl; [by apply well_formed_filter | done]. }
  apply allocate_loop_carved in Hcall as Hc; [|done].
  assert (Allocator.release_segments a' result
          = Ok tt (Allocator.mk (eligible pred a))) as H.
  { rewrite <- (carved_coalesce _ _ _ _ Hc)
      by (by apply well_formed_no_adjacent_neighbours).
    apply release_segments_sorted; [by apply (carved_sort size (eligible pred a))|].
    apply carved_total in Hc. intros [-> _]%app_eq_nil.
    rewrite total_length_nil in Hc. lia. }
  split; [exact H|]. intros ->. rewrite H. by destruct a.
Qed.

Lemma allocate_then_release_witness :
  well_formed_pool (Allocator._free_segments two_devices)
  /\ 0 < 15
  /\ Allocator.allocate_segments two_devices 15 None
     = Ok [mkSegment "d0" 0 10; mkSegment "d1" 0 5] (Allocator.mk [mkSegment "d1" 5 5])
  /\ Allocator.release_segments (Allocator.mk [mkSegment "d1" 5 5])
       [mkSegment "d0" 0 10; mkSegment "d1" 0 5]
     = Ok tt two_devices.
Proof.
  assert (well_formed_pool (Allocator._free_segments two_devices)) as H1.
  { split; [repeat constructor; simpl; lia|].
    repeat constructor. intros [=]. }
  assert (0 < 15) as H2 by lia.
  split; [exact H1|]. split; [exact H2|]. split; [reflexivity|].
  exact (proj2 (allocate_then_release two_devices 15 None _
                  (Allocator.mk [mkSegment "d1" 5 5]) H1 H2 eq_refl) eq_refl).
Defined.

(** ** Release *)

(** X8.  A release is idempotent: once a release has returned, releasing
    nothing succeeds and leaves the pool exactly as it is. *)
Theorem release_segments_idempotent a X a' :
  Allocator.release_segments a X = Ok tt a' ->
  Allocator.release_segments a' [] = Ok tt a'.
Proof.
  intros (s & segs & Hs & Ha')%release_segments_inv.
  assert (sorted_by_key (Allocator._free_segments a')) as Hsorted.
  { rewrite Ha'. apply coalesce_sorted. rewrite <- Hs. apply sort_by_key_sorted. }
  assert (no_adjacent_neighbours (Allocator._free_segments a') = true) as Hadj.
  { rewrite Ha'. apply coalesce_no_adjacent_neighbours. }
  destruct a' as [pool]. simpl in *.
  rewrite (release_segments_sorted (Allocator.mk pool) [] pool).
  - by rewrite coalesce_list_id.
  - simpl. rewrite app_nil_r. by apply sort_by_key_id.
  - rewrite Ha'. destruct (coalesce_head s segs) as (h & tl & -> & _). done.
Qed.

Lemma release_segments_idempotent_witness :
  Allocator.release_segments small_pool [mkSegment "d0" 5 5]
    = Ok tt (Allocator.mk [mkSegment "d0" 0 10])
  /\ Allocator.release_segments (Allocator.mk [mkSegment "d0" 0 10]) []
    = Ok tt (Allocator.mk [mkSegment "d0" 0 10]).
Proof.
  assert (Allocator.release_segments small_pool [mkSegment "d0" 5 5]
          = Ok tt (Allocator.mk [mkSegment "d0" 0 10])) as H by reflexivity.
  split; [exact H|].
  exact (release_segments_idempotent _ _ _ H).
Defined.

Lemma covered_perm l l' d x :
  Permutation l l' -> covered l d x = covered l' d x.
Proof.
  unfold covered. induction 1 as [|s l l' _ IH|s t l|l l' l'' _ IH1 _ IH2]; simpl.
  - done.
  - by rewrite IH.
  - destruct (covers s d x), (covers t d x); done.
  - congruence.
Qed.

Lemma covers_merged s n d x :
  0 <= length s -> 0 <= length n -> adjacent s n = true ->
  covers (mkSegment (dev s) (offset s) (length s + length n)) d x
  = covers s d x || covers n d x.
Proof.
  intros Hs Hn [Hd Ho%Z.eqb_eq]%andb_true_iff. apply String.eqb_eq in Hd.
  unfold covers, seg_end. simpl. rewrite Hd, Ho.
  destruct (String.eqb (dev s) d); simpl; [|done].
  apply eq_true_iff_eq.
  rewrite orb_true_iff, !andb_true_iff, !Z.leb_le, !Z.ltb_lt. lia.
Qed.

Lemma covered_coalesce s segs d x :
  nonneg_lengths (s :: segs) ->
  covered (coalesce s segs) d x = covered (s :: segs) d x.
Proof.
  unfold nonneg_lengths. revert s.
  induction segs as [|n segs IH]; intros s; [done|].
  intros [Hs [Hn Hsegs]%Forall_cons]%Forall_cons. simpl.
  destruct (adjacent s n) eqn:E.
  - rewrite IH by (constructor; [simpl; lia | done]).
    simpl. rewrite covers_merged by done. by rewrite orb_assoc.
  - simpl. rewrite IH by (by constructor). done.
Qed.

(** X9.  Coalescing does not change what is free: when no extent has a
    negative length, an address lies in an extent of the pool after a
    release exactly when it lay in a free or in a released extent. *)
Theorem release_segments_covered a X a' d x :
  nonneg_lengths (Allocator._free_segments a ++ X) ->
  Allocator.release_segments a X = Ok tt a' ->
  covered (Allocator._free_segments a') d x
  = covered (Allocator._free_segments a) d x || covered X d x.
Proof.
  intros Hl (s & segs & Hs & ->)%release_segments_inv.
  pose proof (sort_by_key_perm (Allocator._free_segments a ++ X)) as Hperm.
  rewrite Hs in Hperm.
  rewrite covered_coalesce by (unfold nonneg_lengths; by rewrite Hperm).
  rewrite (covered_perm _ _ d x Hperm). unfold covered. apply existsb_app.
Qed.

Lemma release_segments_covered_witness :
  nonneg_lengths (Allocator._free_segments small_pool ++ [mkSegment "d0" 5 5])
  /\ covered [mkSegment "d0" 0 10] "d0" 7
     = covered (Allocator._free_segments small_pool) "d0" 7
       || covered [mkSegment "d0" 5 5] "d0" 7.
Proof.
  assert (nonneg_lengths
            (Allocator._free_segments small_pool ++ [mkSegment "d0" 5 5])) as H
    by (repeat constructor; simpl; lia).
  split; [exact H|].
  exact (release_segments_covered small_pool [mkSegment "d0" 5 5]
           (Allocator.mk [mkSegment "d0" 0 10]) "d0" 7 H eq_refl).
Defined.

Lemma release_segments_free_space a X a' :
  Allocator.release_segments a X = Ok tt a' ->
  Allocator.free_space a' = Allocator.free_space a + total_length X.
Proof.
  intros (s & segs & Hs & Ha')%release_segments_inv.
  unfold Allocator.free_space. rewrite Ha'.
  fold (total_length (coalesce s segs)).
  fold (total_length (Allocator._free_segments a)).
  rewrite coalesce_total, <- Hs, <- total_length_app.
  apply total_length_perm, sort_by_key_perm.
Qed.

(** ** Targets *)

(** X10.  The projection to targets gives one target per segment, in the
    order of the segments, and loses nothing: two lists of segments with
    the same targets are the same list. *)
Theorem segs_to_targets_faithful (segs : list Segment) :
  List.length (_segs_to_targets segs) = List.length segs
  /\ (forall i s, segs !! i = Some s ->
        _segs_to_targets segs !! i
        = Some (mkLinearTarget (length s) (dev s) (offset s)))
  /\ (forall segs', _segs_to_targets segs = _segs_to_targets segs' -> segs = segs').
Proof.
  unfold _segs_to_targets. split; [apply length_map|]. split.
  - intros i s Hi. by rewrite list_lookup_fmap, Hi.
  - induction segs as [|s segs IH]; intros [|s' segs']; simpl; try done.
    intros [= Hl Hd Ho Hrest]. f_equal; [|by apply IH].
    destruct s, s'. simpl in *. congruence.
Qed.

(** ** Volumes *)




Lemma allocate_segments_space a size result a' :
  Allocator.allocate_segments a size None = Ok result a' ->
  total_length result + Allocator.free_space a' = Allocator.free_space a.
Proof.
  intros Hcall%allocate_segments_inv. simpl in Hcall.
  destruct (Z_lt_le_dec 0 size) as [Hpos|Hz].
  - apply allocate_loop_carved in Hcall; [|done].
    pose proof (carved_total _ _ _ _ Hcall).
    pose proof (carved_rest_total _ _ _ _ Hcall) as Hrest.
    change (total_length result + total_length (Allocator._free_segments a')
            = total_length (Allocator._free_segments a)).
    lia.
  - rewrite allocate_loop_done in Hcall by done. injection Hcall as <- Heq.
    unfold Allocator.free_space. rewrite <- Heq, total_length_nil. lia.
Qed.

(** X12.  Without a predicate no space is lost between a linear volume and
    the allocator: after [allocate] the size of the volume and the free
    space add up to the free space there was, and after a [resize] of an
    allocated volume they add up to what they added up to before. *)
Theorem volume_space_conserved self a new_length self' a' :
  (LinearVolume.allocate self a None = Ok tt (self', a') ->
   Volume.size self' + Allocator.free_space a' = Allocator.free_space a)
  /\ (Volume._allocated self = true ->
      LinearVolume.resize self a new_length None = Ok tt (self', a') ->
      Volume.size self' + Allocator.free_space a'
      = Volume.size self + Allocator.free_space a).
Proof.
  split.
  - unfold LinearVolume.allocate.
    destruct (Allocator.allocate_segments a (Volume._length self) None)
      as [segs a''|] eqn:E; [|done].
    intros [= <- <-]. apply allocate_segments_space in E.
    unfold Volume.size. simpl. exact E.
  - intros Hal. unfold LinearVolume.resize. rewrite Hal. cbn [negb].
    destruct (new_length <? Volume._length self); [done|].
    destruct (Allocator.allocate_segments a (new_length - Volume._length self) None)
      as [segs a''|] eqn:E; [|done].
    intros [= <- <-]. apply allocate_segments_space in E.
    unfold Volume.size. simpl. rewrite map_app, sum_app.
    fold (total_length segs). lia.
Qed.

Lemma volume_space_conserved_witness :
  LinearVolume.allocate (LinearVolume.__init__ "v" 30) (Allocator.mk [d0_0_100]) None
    = Ok tt (volume_v, Allocator.mk [mkSegment "d0" 30 70])
  /\ Volume.size volume_v + Allocator.free_space (Allocator.mk [mkSegment "d0" 30 70])
     = Allocator.free_space (Allocator.mk [d0_0_100])
  /\ Volume._allocated volume_v = true
  /\ exists self' a',
       LinearVolume.resize volume_v (Allocator.mk [mkSegment "d0" 30 70]) 50 None
         = Ok tt (self', a')
       /\ Volume.size self' + Allocator.free_space a'
          = Volume.size volume_v
            + Allocator.free_space (Allocator.mk [mkSegment "d0" 30 70]).
Proof.
  split; [reflexivity|]. split.
  - exact (proj1 (volume_space_conserved (LinearVolume.__init__ "v" 30)
                    (Allocator.mk [d0_0_100]) 0 volume_v
                    (Allocator.mk [mkSegment "d0" 30 70])) eq_refl).
  - split; [reflexivity|]. eexists _, _. split; [reflexivity|].
    exact (proj2 (volume_space_conserved volume_v
                    (Allocator.mk [mkSegment "d0" 30 70]) 50 _ _) eq_refl eq_refl).
Defined.

(** X13.  Allocation can be deferred: a resize of a volume that is not
    allocated touches nothing but the recorded length, and an [allocate]
    that then succeeds gives a volume of that size. *)
Theorem resize_then_allocate self a new_length pred pred' self1 a1 self2 a2 :
  Volume._allocated self = false ->
  0 <= new_length ->
  LinearVolume.resize self a new_length pred = Ok tt (self1, a1) ->
  LinearVolume.allocate self1 a1 pred' = Ok tt (self2, a2) ->
  a1 = a
  /\ Volume._segments self1 = Volume._segments self
  /\ Volume._allocated self2 = true
  /\ Volume._length self2 = new_length
  /\ Volume.size self2 = new_length.
Proof.
  intros Hun Hlen. unfold LinearVolume.resize. rewrite Hun. simpl.
  intros [= <- <-] Hal.
  pose proof (fun H => allocate_size _ _ _ _ _ H Hal) as Hres.
  destruct (Hres Hlen) as [H1 H2].
  repeat split; try done.
  - unfold LinearVolume.allocate in Hal. simpl in Hal.
    destruct (Allocator.allocate_segments _ _ _); [|done].
      by injection Hal as <- _.
  - rewrite H2. unfold LinearVolume.allocate in Hal. simpl in Hal.
    destruct (Allocator.allocate_segments _ _ _); [|done].
      by injection Hal as <- _.
Qed.

Lemma resize_then_allocate_witness :
  Volume._allocated (LinearVolume.__init__ "w" 10) = false
  /\ 0 <= 30
  /\ exists self2 a2,
       LinearVolume.allocate (Volume.mk LinearVolumeClass "w" 30 [] [] false)
         (Allocator.mk [d0_0_100]) None = Ok tt (self2, a2)
       /\ Volume.size self2 = 30.
Proof.
  assert (Volume._allocated (LinearVolume.__init__ "w" 10) = false) as H1
    by reflexivity.
  assert (0 <= 30) as H2 by lia.
  split; [exact H1|]. split; [exact H2|]. eexists _, _. split; [reflexivity|].
  exact (proj2 (proj2 (proj2 (proj2
    (resize_then_allocate (LinearVolume.__init__ "w" 10) (Allocator.mk [d0_0_100])
       30 None None _ _ _ _ H1 H2 eq_refl eq_refl))))).
Defined.

(** ** The volume manager *)

(** X14.  Registering backing space never fails and never touches the
    registry; the free space grows by the length given, or by the size of
    the device when the length is left out or is 0. *)
Theorem add_allocation_volume_grows (dev_size : string -> Z) vm dev offset length :
  exists vm',
    VM.add_allocation_volume dev_size vm dev offset length = Ok tt vm'
    /\ VM._volumes vm' = VM._volumes vm
    /\ (forall l, length = Some l -> l <> 0 ->
          VM.free_space vm' = VM.free_space vm + l)
    /\ (length = None \/ length = Some 0 ->
          VM.free_space vm' = VM.free_space vm + dev_size dev).
Proof.
  unfold VM.add_allocation_volume.
  set (len := match length with
              | Some l => if l =? 0 then dev_size dev else l
              | None => dev_size dev
              end).
  destruct (release_segments_nonempty (VM._allocator vm) [mkSegment dev offset len])
    as (s & segs & _ & Hr).
  { by destruct (Allocator._free_segments (VM._allocator vm)). }
  rewrite Hr. eexists. split; [reflexivity|]. split; [reflexivity|].
  apply release_segments_free_space in Hr.
  rewrite total_length_cons, total_length_nil in Hr. simpl in Hr.
  unfold VM.free_space. simpl. rewrite Hr. split.
  - intros l -> Hl. subst len. destruct (Z.eqb_spec l 0); [done | lia].
  - intros [-> | ->]; subst len; simpl; lia.
Qed.

Lemma add_volume_inv vm vol pred vm' :
  VM.add_volume vm vol pred = Ok tt vm' ->
  Volume.class vol = LinearVolumeClass
  /\ VM._volumes vm !! Volume._name vol = None
  /\ exists segs,
       Allocator.allocate_segments (VM._allocator vm) (Volume._length vol) pred
       = Ok segs (VM._allocator vm')
       /\ VM._volumes vm'
          = <[Volume._name vol :=
                Volume.mk LinearVolumeClass (Volume._name vol) (Volume._length vol)
                  segs (_segs_to_targets segs) true]> (VM._volumes vm).
Proof.
  unfold VM.add_volume, VM._check_not_exist, call_allocate.
  destruct (decide _) as [|Hnone]; [done|]. simpl.
  destruct (Volume.class vol) eqn:Hc; [done|].
  unfold LinearVolume.allocate.
  destruct (Allocator.allocate_segments _ _ _) as [segs a'|] eqn:E; [|done].
  intros [= <-]. split; [done|]. split.
  - destruct (VM._volumes vm !! Volume._name vol) eqn:El; [|done].
    destruct Hnone. by eexists.
  - exists segs. simpl. by rewrite Hc.
Qed.

Lemma VM_lookup_present vm name vol :
  VM._volumes vm !! name = Some vol ->
  VM.segments vm name = Ok (Volume._segments vol) vm
  /\ VM.targets vm name = Ok (Volume._targets vol) vm
  /\ VM.size vm name = Ok (Volume.size vol) vm.
Proof.
  intros H. unfold VM.segments, VM.targets, VM.size.
  rewrite (check_exists_present _ _ _ H). unfold VM.getitem. simpl.
  by rewrite H.
Qed.

(** X15.  When [add_volume] succeeds the volume is a linear one, its name
    was free, and the manager then answers for that name with the segments
    the allocator returned, their targets and, for a length that is not
    negative, the length of the volume as its size; the other names are as
    they were. *)
Theorem add_volume_registers vm vol pred vm' :
  VM.add_volume vm vol pred = Ok tt vm' ->
  Volume.class vol = LinearVolumeClass
  /\ VM._volumes vm !! Volume._name vol = None
  /\ (exists segs,
        Allocator.allocate_segments (VM._allocator vm) (Volume._length vol) pred
        = Ok segs (VM._allocator vm')
        /\ VM.segments vm' (Volume._name vol) = Ok segs vm'
        /\ VM.targets vm' (Volume._name vol) = Ok (_segs_to_targets segs) vm')
  /\ (0 <= Volume._length vol ->
      VM.size vm' (Volume._name vol) = Ok (Volume._length vol) vm')
  /\ (forall other, other <> Volume._name vol ->
        VM._volumes vm' !! other = VM._volumes vm !! other).
Proof.
  intros (Hc & Hfresh & segs & Hal & Hvols)%add_volume_inv.
  assert (VM._volumes vm' !! Volume._name vol
          = Some (Volume.mk LinearVolumeClass (Volume._name vol) (Volume._length vol)
                    segs (_segs_to_targets segs) true)) as Hl.
  { rewrite Hvols. apply lookup_insert_eq. }
  destruct (VM_lookup_present _ _ _ Hl) as (Hsegs & Htargets & Hsize).
  split; [done|]. split; [done|]. split; [by exists segs|]. split.
  - intros Hlen. rewrite Hsize. f_equal. unfold Volume.size. simpl.
    fold (total_length segs).
    destruct (Z_lt_le_dec 0 (Volume._length vol)) as [Hpos|Hz].
    + apply allocate_segments_inv, allocate_loop_carved in Hal; [|done].
      by apply (carved_total _ _ _ _ Hal).
    + apply allocate_segments_inv in Hal.
      rewrite allocate_loop_done in Hal by done.
      injection Hal as <- _. rewrite total_length_nil. lia.
  - intros other Hne. rewrite Hvols. by apply lookup_insert_ne.
Qed.

Lemma add_volume_registers_witness :
  VM.add_volume (VM.mk (Allocator.mk [d0_0_100]) ∅) (LinearVolume.__init__ "v" 30) None
    = Ok tt vm_with_v
  /\ VM.size vm_with_v "v" = Ok 30 vm_with_v.
Proof.
  assert (VM.add_volume (VM.mk (Allocator.mk [d0_0_100]) ∅)
            (LinearVolume.__init__ "v" 30) None = Ok tt vm_with_v) as H
    by reflexivity.
  split; [exact H|].
  destruct (add_volume_registers _ _ _ _ H) as (_ & _ & _ & Hsize & _).
  apply Hsize. simpl. lia.
Defined.

(** X16.  Removing a registered volume, unless the pool and the volume are
    both empty, succeeds: the name is gone from the registry and only it,
    the free space grows by the size of the volume, and a query for the
    name then fails. *)
Theorem remove_volume_releases vm name vol :
  VM._volumes vm !! name = Some vol ->
  Allocator._free_segments (VM._allocator vm) ++ Volume._segments vol <> [] ->
  exists vm',
    VM.remove_volume vm name = Ok tt vm'
    /\ VM._volumes vm' = delete name (VM._volumes vm)
    /\ VM.free_space vm' = VM.free_space vm + Volume.size vol
    /\ VM.segments vm' name
       = Raise (VolumeError ("Volume '" +:+ name +:+ "' doesn't exist")) vm'.
Proof.
  intros Hl Hne. unfold VM.remove_volume.
  rewrite (check_exists_present _ _ _ Hl). unfold VM.getitem. simpl.
  rewrite Hl. simpl.
  destruct (release_segments_nonempty _ _ Hne) as (s & segs & _ & Hr).
  rewrite Hr. eexists. split; [reflexivity|]. split; [reflexivity|]. split.
  - apply release_segments_free_space in Hr. exact Hr.
  - unfold VM.segments. rewrite check_exists_absent; [done|].
    simpl. apply lookup_delete_eq.
Qed.

Lemma remove_volume_releases_witness :
  VM._volumes vm_with_v !! "v"%string = Some volume_v
  /\ Allocator._free_segments (VM._allocator vm_with_v) ++ Volume._segments volume_v <> []
  /\ exists vm',
       VM.remove_volume vm_with_v "v" = Ok tt vm'
       /\ VM.free_space vm' = VM.free_space vm_with_v + Volume.size volume_v.
Proof.
  assert (VM._volumes vm_with_v !! "v"%string = Some volume_v) as H1 by reflexivity.
  assert (Allocator._free_segments (VM._allocator vm_with_v)
          ++ Volume._segments volume_v <> []) as H2 by discriminate.
  split; [exact H1|]. split; [exact H2|].
  destruct (remove_volume_releases vm_with_v "v" volume_v H1 H2)
    as (vm' & Hr & _ & Hf & _).
  exists vm'. split; [exact Hr | exact Hf].
Defined.

(** X17.  [remove_volume] fails in two ways, both leaving the state as it
    was: with [VolumeError] for a name that is not registered, and with
    [IndexError] for a registered volume without segments while the pool is
    empty, the volume then staying registered. *)
Theorem remove_volume_failure vm name :
  (VM._volumes vm !! name = None ->
   VM.remove_volume vm name
   = Raise (VolumeError ("Volume '" +:+ name +:+ "' doesn't exist")) vm)
  /\ (forall vol,
        VM._volumes vm !! name = Some vol ->
        Allocator._free_segments (VM._allocator vm) = [] ->
        Volume._segments vol = [] ->
        VM.remove_volume vm name = Raise (IndexError "pop from empty list") vm).
Proof.
  unfold VM.remove_volume. split.
  - intros H. by rewrite (check_exists_absent _ _ H).
  - intros vol Hl Hpool Hsegs.
    rewrite (check_exists_present _ _ _ Hl). unfold VM.getitem. simpl.
    rewrite Hl. simpl. unfold Allocator.release_segments.
    rewrite Hpool, Hsegs. simpl.
    destruct vm as [[pool] vols]. simpl in *. by subst pool.
Qed.

Lemma remove_volume_failure_witness :
  VM._volumes VM.__init__ !! "v"%string = None
  /\ VM.remove_volume VM.__init__ "v"
     = Raise (VolumeError "Volume 'v' doesn't exist") VM.__init__
  /\ VM.add_volume VM.__init__ (LinearVolume.__init__ "z" 0) None
     = Ok tt (VM.mk (Allocator.mk [])
                {[ "z"%string := Volume.mk LinearVolumeClass "z" 0 [] [] true ]})
  /\ VM.remove_volume
       (VM.mk (Allocator.mk [])
          {[ "z"%string := Volume.mk LinearVolumeClass "z" 0 [] [] true ]}) "z"
     = Raise (IndexError "pop from empty list")
         (VM.mk (Allocator.mk [])
            {[ "z"%string := Volume.mk LinearVolumeClass "z" 0 [] [] true ]}).
Proof.
  assert (VM._volumes VM.__init__ !! "v"%string = None) as H by reflexivity.
  split; [exact H|]. split; [|split; [reflexivity|]].
  - exact (proj1 (remove_volume_failure VM.__init__ "v") H).
  - exact (proj2 (remove_volume_failure
                    (VM.mk (Allocator.mk [])
                       {[ "z"%string := Volume.mk LinearVolumeClass "z" 0 [] [] true ]})
                    "z")
             (Volume.mk LinearVolumeClass "z" 0 [] [] true)
             eq_refl eq_refl eq_refl).
Defined.

(** X18.  On a well formed pool, adding a linear volume of positive length
    without a predicate and then removing it puts the manager back in the
    state it had: the same free pool and the same registry. *)
Theorem add_then_remove vm vol vm' :
  well_formed_pool (Allocator._free_segments (VM._allocator vm)) ->
  0 < Volume._length vol ->
  VM.add_volume vm vol None = Ok tt vm' ->
  VM.remove_volume vm' (Volume._name vol) = Ok tt vm.
Proof.
  intros Hwf Hlen (Hc & Hfresh & segs & Hal & Hvols)%add_volume_inv.
  assert (VM._volumes vm' !! Volume._name vol
          = Some (Volume.mk LinearVolumeClass (Volume._name vol) (Volume._length vol)
                    segs (_segs_to_targets segs) true)) as Hl.
  { rewrite Hvols. apply lookup_insert_eq. }
  unfold VM.remove_volume.
  rewrite (check_exists_present _ _ _ Hl). unfold VM.getitem. simpl.
  rewrite Hl. simpl.
  apply allocate_segments_inv in Hal as Hloop.
  apply allocate_loop_carved in Hloop as Hc'; [|done]. simpl in Hc'.
  assert (Allocator.release_segments (VM._allocator vm') segs
          = Ok tt (VM._allocator vm)) as ->.
  { replace (VM._allocator vm)
      with (Allocator.mk (Allocator._free_segments (VM._allocator vm)))
      by (by destruct (VM._allocator vm)).
    rewrite <- (carved_coalesce _ _ _ _ Hc')
      by (by apply well_formed_no_adjacent_neighbours).
    apply release_segments_sorted.
    - by apply (carved_sort (Volume._length vol)
                  (Allocator._free_segments (VM._allocator vm))).
    - apply carved_total in Hc'. intros [-> _]%app_eq_nil.
      rewrite total_length_nil in Hc'. lia. }
  rewrite Hvols, delete_insert_eq, delete_id by done.
  by destruct vm.
Qed.

Lemma add_then_remove_witness :
  well_formed_pool
    (Allocator._free_segments (VM._allocator (VM.mk (Allocator.mk [d0_0_100]) ∅)))
  /\ 0 < Volume._length (LinearVolume.__init__ "v" 30)
  /\ VM.add_volume (VM.mk (Allocator.mk [d0_0_100]) ∅) (LinearVolume.__init__ "v" 30) None
     = Ok tt vm_with_v
  /\ VM.remove_volume vm_with_v "v" = Ok tt (VM.mk (Allocator.mk [d0_0_100]) ∅).
Proof.
  assert (well_formed_pool
            (Allocator._free_segments
               (VM._allocator (VM.mk (Allocator.mk [d0_0_100]) ∅)))) as H1.
  { split; repeat constructor. }
  assert (0 < Volume._length (LinearVolume.__init__ "v" 30)) as H2
    by (simpl; lia).
  split; [exact H1|]. split; [exact H2|]. split; [reflexivity|].
  exact (add_then_remove (VM.mk (Allocator.mk [d0_0_100]) ∅)
           (LinearVolume.__init__ "v" 30) vm_with_v H1 H2 eq_refl).
Defined.

(** X19.  [VM.resize] never succeeds and never changes the state: for a
    name that is not registered it raises [VolumeError], for a registered
    one [NameError], whatever the new size and the predicate. *)
Theorem VM_resize_never_succeeds vm name new_size pred :
  VM.resize vm name new_size pred
  = Raise (match VM._volumes vm !! name with
           | Some _ => NameError "name 'segment_preicate' is not defined"
           | None => VolumeError ("Volume '" +:+ name +:+ "' doesn't exist")
           end) vm.
Proof.
  destruct (VM._volumes vm !! name) as [vol|] eqn:E.
  - by apply (VM_resize_present vm name vol).
  - unfold VM.resize. by rewrite (check_exists_absent _ _ E).
Qed.

(** ** Further properties of the allocator *)

(** X20.  Allocation is first come, first served: a successful allocation
    of [size > 0] returns the leading candidates in pool order, whole but
    for the last one, of which it may return a proper prefix; the pool it
    leaves is the rest of the candidates, headed by what remains of that
    last one. *)
Theorem allocate_segments_fifo a size pred result a' :
  0 < size ->
  Allocator.allocate_segments a size pred = Ok result a' ->
  carved size (eligible pred a) result (Allocator._free_segments a')
  /\ (List.length result <= List.length (eligible pred a))%nat.
Proof.
  intros Hsize Hcall%allocate_segments_inv.
  apply allocate_loop_carved in Hcall as Hc; [|done].
  split; [exact Hc|].
  destruct Hc as [-> _ | taken x tl n -> -> _ _ _];
    rewrite !length_app; simpl; lia.
Qed.

Lemma allocate_segments_fifo_witness :
  0 < 15
  /\ carved 15 (eligible None two_devices)
       [mkSegment "d0" 0 10; mkSegment "d1" 0 5] [mkSegment "d1" 5 5].
Proof.
  assert (0 < 15) as H by lia.
  split; [exact H|].
  exact (proj1 (allocate_segments_fifo two_devices 15 None _
                  (Allocator.mk [mkSegment "d1" 5 5]) H eq_refl)).
Defined.

Lemma coalesce_length s segs :
  (1 <= List.length (coalesce s segs) <= S (List.length segs))%nat.
Proof.
  revert s. induction segs as [|n segs IH]; intros s; simpl; [lia|].
  destruct (adjacent s n).
  - specialize (IH (mkSegment (dev s) (offset s) (length s + length n))). lia.
  - specialize (IH n). simpl. lia.
Qed.

(** X21.  [_merge] fails only on an empty list, with [IndexError]; on any
    other list it empties the list it was given and returns a list that is
    not empty, has no more entries than were given and holds the same total
    length. *)
Theorem merge_bounds segs :
  match segs with
  | [] => _merge segs = Raise (IndexError "pop from empty list") []
  | _ :: _ =>
      exists merged,
        _merge segs = Ok merged []
        /\ (1 <= List.length merged <= List.length segs)%nat
        /\ total_length merged = total_length segs
  end.
Proof.
  destruct segs as [|x l]; [reflexivity|].
  destruct (merge_nonempty (x :: l)) as (s & segs' & Hs & Hm); [done|].
  exists (coalesce s segs'). split; [exact Hm|].
  pose proof (sort_by_key_perm (x :: l)) as Hperm. rewrite Hs in Hperm.
  split.
  - pose proof (coalesce_length s segs').
    apply Permutation_length in Hperm. simpl in *. lia.
  - rewrite coalesce_total. by apply total_length_perm.
Qed.

(** ** Failures of a volume *)

(** X22.  A failed [allocate] or [resize] of a linear volume leaves the
    volume as it was; [allocate] fails only with the allocation error, and
    [resize] only with that or with [NotImplementedError]. *)
Theorem volume_failure_keeps_volume self a new_length pred e st :
  (LinearVolume.allocate self a pred = Raise e st ->
   fst st = self
   /\ e = SegmentAllocationError "Out of space in the segment allocator")
  /\ (LinearVolume.resize self a new_length pred = Raise e st ->
      fst st = self
      /\ (e = SegmentAllocationError "Out of space in the segment allocator"
          \/ e = NotImplementedError "reduce not implemented")).
Proof.
  assert (forall size e' a',
            Allocator.allocate_segments a size pred = Raise e' a' ->
            e' = SegmentAllocationError "Out of space in the segment allocator")
    as Hraise.
  { intros size e' a'. unfold Allocator.allocate_segments.
    destruct pred; destruct (allocate_loop _ _ _) eqn:E; intros [= <- _];
      by apply allocate_loop_raise in E as [-> _]. }
  split.
  - unfold LinearVolume.allocate.
    destruct (Allocator.allocate_segments a (Volume._length self) pred)
      as [|e' a''] eqn:E; [done|].
    intros [= <- <-]. split; [done|]. by apply (Hraise _ _ _ E).
  - unfold LinearVolume.resize.
    destruct (Volume._allocated self); cbn [negb]; [|done].
    destruct (new_length <? Volume._length self).
    { intros [= <- <-]. split; [done | by right]. }
    destruct (Allocator.allocate_segments a (new_length - Volume._length self) pred)
      as [|e' a''] eqn:E; [done|].
    intros [= <- <-]. split; [done|]. left. by apply (Hraise _ _ _ E).
Qed.

Lemma volume_failure_keeps_volume_witness :
  LinearVolume.allocate (LinearVolume.__init__ "v" 30) small_pool None
    = Raise (SegmentAllocationError "Out of space in the segment allocator")
        (LinearVolume.__init__ "v" 30, Allocator.mk [])
  /\ fst (LinearVolume.__init__ "v" 30, Allocator.mk [])
     = LinearVolume.__init__ "v" 30
  /\ LinearVolume.resize volume_v small_pool 20 None
     = Raise (NotImplementedError "reduce not implemented") (volume_v, small_pool)
  /\ fst (volume_v, small_pool) = volume_v.
Proof.
  split; [reflexivity|]. split.
  - exact (proj1 (proj1 (volume_failure_keeps_volume (LinearVolume.__init__ "v" 30)
                           small_pool 0 None _ _) eq_refl)).
  - split; [reflexivity|].
    exact (proj1 (proj2 (volume_failure_keeps_volume volume_v small_pool 20 None
                           _ _) eq_refl)).
Defined.

(** ** Space held by the manager *)

Lemma allocated_space_insert vm a name vol :
  VM._volumes vm !! name = None ->
  allocated_space (VM.mk a (<[name := vol]> (VM._volumes vm)))
  = Volume.size vol + allocated_space vm.
Proof.
  intros H. unfold allocated_space. simpl.
  rewrite map_fold_insert_L; [done| |done]. intros. lia.
Qed.

Lemma allocated_space_delete vm a name vol :
  VM._volumes vm !! name = Some vol ->
  allocated_space vm
  = Volume.size vol + allocated_space (VM.mk a (delete name (VM._volumes vm))).
Proof.
  intros H. unfold allocated_space. simpl.
  rewrite (map_fold_delete_L _ _ name vol); [done| |done]. intros. lia.
Qed.

Lemma remove_volume_inv vm name vm' :
  VM.remove_volume vm name = Ok tt vm' ->
  exists vol,
    VM._volumes vm !! name = Some vol
    /\ Allocator.release_segments (VM._allocator vm) (Volume._segments vol)
       = Ok tt (VM._allocator vm')
    /\ VM._volumes vm' = delete name (VM._volumes vm).
Proof.
  unfold VM.remove_volume, VM._check_exists, VM.getitem.
  destruct (decide _); [|done]. simpl.
  destruct (VM._volumes vm !! name) as [vol|]; [|done]. simpl.
  destruct (Allocator.release_segments _ _) as [[] a'|] eqn:E; [|done].
  intros [= <-]. by exists vol.
Qed.

(** X23.  The manager neither creates nor loses space: adding a volume
    without a predicate, and removing a volume, leave the sum of the free
    space and of the sizes of the registered volumes as it was. *)
Theorem space_conserved vm vm' :
  (forall vol,
     VM.add_volume vm vol None = Ok tt vm' ->
     VM.free_space vm' + allocated_space vm'
     = VM.free_space vm + allocated_space vm)
  /\ (forall name,
        VM.remove_volume vm name = Ok tt vm' ->
        VM.free_space vm' + allocated_space vm'
        = VM.free_space vm + allocated_space vm).
Proof.
  split.
  - intros vol (Hc & Hfresh & segs & Hal & Hvols)%add_volume_inv.
    apply allocate_segments_space in Hal.
    destruct vm' as [a' vols']. simpl in *. subst vols'.
    rewrite allocated_space_insert by done.
    unfold VM.free_space, Volume.size. simpl.
    fold (total_length segs). lia.
  - intros name (vol & Hl & Hr & Hvols)%remove_volume_inv.
    apply release_segments_free_space in Hr.
    destruct vm' as [a' vols']. simpl in *. subst vols'.
    rewrite (allocated_space_delete vm a' name vol) by done.
    unfold VM.free_space, Volume.size in *. simpl.
    fold (total_length (Volume._segments vol)). lia.
Qed.

Lemma space_conserved_witness :
  VM.add_volume (VM.mk (Allocator.mk [d0_0_100]) ∅) (LinearVolume.__init__ "v" 30) None
    = Ok tt vm_with_v
  /\ VM.free_space vm_with_v + allocated_space vm_with_v
     = VM.free_space (VM.mk (Allocator.mk [d0_0_100]) ∅)
       + allocated_space (VM.mk (Allocator.mk [d0_0_100]) ∅)
  /\ VM.remove_volume vm_with_v "v" = Ok tt (VM.mk (Allocator.mk [d0_0_100]) ∅)
  /\ VM.free_space (VM.mk (Allocator.mk [d0_0_100]) ∅)
     + allocated_space (VM.mk (Allocator.mk [d0_0_100]) ∅)
     = VM.free_space vm_with_v + allocated_space vm_with_v.
Proof.
  split; [reflexivity|]. split; [|split; [reflexivity|]].
  - exact (proj1 (space_conserved (VM.mk (Allocator.mk [d0_0_100]) ∅) vm_with_v)
             (LinearVolume.__init__ "v" 30) eq_refl).
  - exact (proj2 (space_conserved vm_with_v (VM.mk (Allocator.mk [d0_0_100]) ∅))
             "v" eq_refl).
Defined.
